(** * linkinator: link extraction ([src/links.ts]) and crawl deduplication

    A shallow embedding of [src/links.ts] together with the theorems that
    relate it to the natural-language specification of the crawler.

    Conventions.
    - A JavaScript string is the sequence of its UTF-16 code units
      ([jsstring]); regular expressions without the [u] flag, [trim],
      [split] and [===] all work on code units.
    - The two regular expressions of [isAbsoluteUrl] are kept as regular
      expression syntax trees and run by a derivative matcher.
    - [cheerio.load] and the WHATWG parser behind [new URL] are libraries,
      not code of this repository: a document is the element tree the HTML
      parser produced, and the URL parser is a parameter of the development.
    - An exception is a value: a function that can throw returns
      [Error + _]. *)

From Stdlib Require Import List PeanoNat NArith Bool Lia String Ascii.
From Stdlib Require DecimalString.
Import ListNotations.

Set Implicit Arguments.
Set Warnings "-register-all".

(* ================================================================== *)
(** ** JavaScript strings *)

Module JS.

Local Open Scope N_scope.

Definition jsstring := list N.

(** The code units of an ASCII literal of the source. *)
Definition lit (s : string) : jsstring :=
  map N_of_ascii (list_ascii_of_string s).
Arguments lit s%_string.

(** [a === b] on strings. *)
Fixpoint eqb (a b : jsstring) : bool :=
  match a, b with
  | [], [] => true
  | x :: a', y :: b' => (x =? y) && eqb a' b'
  | _, _ => false
  end.

Fixpoint take_while (p : N -> bool) (s : jsstring) : jsstring :=
  match s with
  | [] => []
  | c :: s' => if p c then c :: take_while p s' else []
  end.

Fixpoint drop_while (p : N -> bool) (s : jsstring) : jsstring :=
  match s with
  | [] => []
  | c :: s' => if p c then drop_while p s' else s
  end.

(** [!!v] for a string [v]: false exactly for the empty string. *)
Definition truthy (v : jsstring) : bool :=
  match v with [] => false | _ :: _ => true end.

(** ECMAScript [WhiteSpace] and [LineTerminator] code points: what
    [String.prototype.trim] strips and what [\s] matches. *)
Definition is_space (c : N) : bool :=
  ((9 <=? c) && (c <=? 13)) || (c =? 32) || (c =? 160) || (c =? 5760)
  || ((8192 <=? c) && (c <=? 8202)) || (c =? 8232) || (c =? 8233)
  || (c =? 8239) || (c =? 8287) || (c =? 12288) || (c =? 65279).

(** [[a-zA-Z]] *)
Definition is_letter (c : N) : bool :=
  ((97 <=? c) && (c <=? 122)) || ((65 <=? c) && (c <=? 90)).

(** [\d] *)
Definition is_digit (c : N) : bool := (48 <=? c) && (c <=? 57).

(** [[a-zA-Z\d+\-.]] *)
Definition is_scheme_char (c : N) : bool :=
  is_letter c || is_digit c || (c =? 43) || (c =? 45) || (c =? 46).

Definition colon : N := 58.
Definition backslash : N := 92.
Definition comma : N := 44.

(** [s.split(sep)] for a one-character separator, as the first piece and
    the remaining pieces: the result of [split] is never empty. *)
Fixpoint split_pieces (sep : N) (s : jsstring) : jsstring * list jsstring :=
  match s with
  | [] => ([], [])
  | c :: s' =>
      let (piece, pieces) := split_pieces sep s' in
      if c =? sep then ([], piece :: pieces) else (c :: piece, pieces)
  end.

Definition split (sep : N) (s : jsstring) : list jsstring :=
  let (piece, pieces) := split_pieces sep s in piece :: pieces.

(** [s.split(/\s+/)], again as first piece and remaining pieces.  A
    maximal run of white space is one separator; [in_run] tells that the
    previous code unit already belonged to the current run. *)
Fixpoint split_spaces_from (in_run : bool) (s : jsstring)
  : jsstring * list jsstring :=
  match s with
  | [] => ([], [])
  | c :: s' =>
      if is_space c then
        if in_run then split_spaces_from true s'
        else let (piece, pieces) := split_spaces_from true s' in
             ([], piece :: pieces)
      else
        let (piece, pieces) := split_spaces_from false s' in
        (c :: piece, pieces)
  end.

Definition split_spaces (s : jsstring) : jsstring * list jsstring :=
  split_spaces_from false s.

(** [s.trim()] *)
Definition trim_start (s : jsstring) : jsstring := drop_while is_space s.

Fixpoint trim_end_by (p : N -> bool) (s : jsstring) : jsstring :=
  match s with
  | [] => []
  | c :: s' =>
      match trim_end_by p s' with
      | [] => if p c then [] else [c]
      | t => c :: t
      end
  end.

Definition trim_end (s : jsstring) : jsstring := trim_end_by is_space s.

Definition trim (s : jsstring) : jsstring := trim_end (trim_start s).

(** A plain object with string keys, in insertion order; [o[k]] is
    [undefined] ([None]) when [k] is not a key. *)
Definition object (V : Type) := list (jsstring * V).

Fixpoint get {V} (o : object V) (k : jsstring) : option V :=
  match o with
  | [] => None
  | (k', v) :: o' => if eqb k' k then Some v else get o' k
  end.

Definition Object_keys {V} (o : object V) : list jsstring := map fst o.

(** [l.includes(v)] where [v] may be [undefined]. *)
Definition includes (l : list jsstring) (v : option jsstring) : bool :=
  match v with
  | Some s => existsb (eqb s) l
  | None => false
  end.

Inductive Error : Type :=
| TypeError (message : jsstring).

End JS.

Import JS.

(* ================================================================== *)
(** ** Regular expressions *)

Module Regex.

Inductive regex : Type :=
| Void : regex
| Eps : regex
| Class : (N -> bool) -> regex
| Seq : regex -> regex -> regex
| Alt : regex -> regex -> regex
| Star : regex -> regex.

Definition Chr (c : N) : regex := Class (N.eqb c).

(** The language of a regular expression. *)
Inductive matches : regex -> jsstring -> Prop :=
| MEps : matches Eps []
| MClass p c : p c = true -> matches (Class p) [c]
| MSeq r1 r2 s1 s2 :
    matches r1 s1 -> matches r2 s2 -> matches (Seq r1 r2) (s1 ++ s2)
| MAltL r1 r2 s : matches r1 s -> matches (Alt r1 r2) s
| MAltR r1 r2 s : matches r2 s -> matches (Alt r1 r2) s
| MStarNil r : matches (Star r) []
| MStarApp r s1 s2 :
    matches r s1 -> matches (Star r) s2 -> matches (Star r) (s1 ++ s2).

Fixpoint nullable (r : regex) : bool :=
  match r with
  | Void => false
  | Eps => true
  | Class _ => false
  | Seq r1 r2 => nullable r1 && nullable r2
  | Alt r1 r2 => nullable r1 || nullable r2
  | Star _ => true
  end.

Fixpoint deriv (c : N) (r : regex) : regex :=
  match r with
  | Void => Void
  | Eps => Void
  | Class p => if p c then Eps else Void
  | Seq r1 r2 =>
      if nullable r1
      then Alt (Seq (deriv c r1) r2) (deriv c r2)
      else Seq (deriv c r1) r2
  | Alt r1 r2 => Alt (deriv c r1) (deriv c r2)
  | Star r1 => Seq (deriv c r1) (Star r1)
  end.

(** [/^r/.test(s)]: some prefix of [s] is in the language of [r]. *)
Fixpoint test_anchored (r : regex) (s : jsstring) : bool :=
  nullable r ||
  match s with
  | [] => false
  | c :: s' => test_anchored (deriv c r) s'
  end.

End Regex.

Import Regex.

(* ================================================================== *)
(** ** URLs *)

Module Url.

Local Open Scope N_scope.

(** The URL record of the WHATWG URL standard, which is what a [URL]
    object of Node wraps.  [host] is kept in its serialized form. *)
Inductive url_path : Type :=
| OpaquePath (p : jsstring)
| PathSegments (segments : list jsstring).

Record URL : Type := mkURL {
  scheme : jsstring;
  username : jsstring;
  password : jsstring;
  host : option jsstring;
  port : option N;
  path : url_path;
  query : option jsstring;
  fragment : option jsstring
}.

(** The [hash] getter. *)
Definition hash (u : URL) : jsstring :=
  match fragment u with
  | None => []
  | Some [] => []
  | Some f => 35 :: f
  end.

(** The trailing U+0020 code units of an opaque path, removed. *)
Definition strip_trailing_spaces (p : jsstring) : jsstring :=
  trim_end_by (N.eqb 32) p.

(** [url.hash = ''], the only assignment to [hash] in the source.  Given
    the empty string the setter sets the fragment to null and then strips
    the trailing spaces of an opaque path, which it does when the query is
    null as well. *)
Definition set_hash_empty (u : URL) : URL :=
  mkURL (scheme u) (username u) (password u) (host u) (port u)
        (match path u, query u with
         | OpaquePath p, None => OpaquePath (strip_trailing_spaces p)
         | p, _ => p
         end)
        (query u) None.

Definition decimal (n : N) : jsstring :=
  lit (DecimalString.NilZero.string_of_uint (N.to_uint n)).

Definition serialize_path (p : url_path) : jsstring :=
  match p with
  | OpaquePath s => s
  | PathSegments segs => flat_map (fun seg => 47 :: seg) segs
  end.

(** The [href] getter: the URL serializer. *)
Definition href (u : URL) : jsstring :=
  scheme u ++ [colon] ++
  match host u with
  | Some h =>
      lit "//" ++
      (if truthy (username u) || truthy (password u)
       then username u ++
            (if truthy (password u) then colon :: password u else []) ++
            [64]
       else []) ++
      h ++
      match port u with
      | Some n => colon :: decimal n
      | None => []
      end
  | None =>
      match path u with
      | PathSegments ([] :: _ :: _) => lit "/."
      | _ => []
      end
  end ++
  serialize_path (path u) ++
  match query u with Some q => 63 :: q | None => [] end ++
  match fragment u with Some f => 35 :: f | None => [] end.

(** [new URL(input, base)]: the parser of the platform.  It either
    throws a [TypeError] or returns a URL. *)
Class UrlParser : Type :=
  new_URL : jsstring -> jsstring -> Error + URL.

End Url.

Import Url.

(* ================================================================== *)
(** ** Documents and selection *)

Module Dom.

(** What [cheerio.load] returns: the forest of nodes produced by the
    HTML parser.  [attribs] is the attribute object of an element. *)
Record element : Type := mkElement {
  tagName : jsstring;
  attribs : object jsstring
}.

Inductive node : Type :=
| Tag (e : element) (children : list node)
| Text (data : jsstring).

Definition document := list node.

(** The elements of a tree in document order. *)
Fixpoint elements_of (n : node) : list element :=
  match n with
  | Tag e children => e :: flat_map elements_of children
  | Text _ => []
  end.

Definition elements (doc : document) : list element :=
  flat_map elements_of doc.

(** The selectors the source builds: [tag[attr]], and comma-separated
    groups of these. *)
Inductive selector : Type :=
| TagAttr (tag attr : jsstring).

Definition has_attrib (e : element) (attr : jsstring) : bool :=
  match get (attribs e) attr with Some _ => true | None => false end.

Definition selector_matches (e : element) (sel : selector) : bool :=
  match sel with
  | TagAttr tag attr => eqb (tagName e) tag && has_attrib e attr
  end.

(** [$(group)]: the elements matching one of the selectors of the group,
    each once, in document order. *)
Definition select (group : list selector) (doc : document) : list element :=
  filter (fun e => existsb (selector_matches e) group) (elements doc).

End Dom.

Import Dom.

(* ================================================================== *)
(** ** [isAbsoluteUrl] *)

(** [/^[a-zA-Z]:\\/] *)
Definition windows_path_re : regex :=
  Seq (Class is_letter) (Seq (Chr colon) (Chr backslash)).

(** [/^[a-zA-Z][a-zA-Z\d+\-.]*:/] *)
Definition scheme_re : regex :=
  Seq (Class is_letter) (Seq (Star (Class is_scheme_char)) (Chr colon)).

Definition isAbsoluteUrl (url : jsstring) : bool :=
  if test_anchored windows_path_re url then false
  else test_anchored scheme_re url.

(** The specification's wording of the two shapes. *)
Definition scheme_prefix (s : jsstring) : Prop :=
  exists c body rest,
    s = c :: body ++ colon :: rest /\
    is_letter c = true /\
    Forall (fun x => is_scheme_char x = true) body.

Definition windows_drive_path (s : jsstring) : Prop :=
  exists c rest, s = c :: colon :: backslash :: rest /\ is_letter c = true.

(* ================================================================== *)
(** ** [src/links.ts] *)

Definition linksAttr : object (list jsstring) :=
  [ (lit "background", [lit "body"]);
    (lit "cite", [lit "blockquote"; lit "del"; lit "ins"; lit "q"]);
    (lit "data", [lit "object"]);
    (lit "href", [lit "a"; lit "area"; lit "embed"; lit "link"]);
    (lit "icon", [lit "command"]);
    (lit "longdesc", [lit "frame"; lit "iframe"]);
    (lit "manifest", [lit "html"]);
    (lit "poster", [lit "video"]);
    (lit "pluginspage", [lit "embed"]);
    (lit "pluginurl", [lit "embed"]);
    (lit "src",
      [lit "audio"; lit "embed"; lit "frame"; lit "iframe"; lit "img";
       lit "input"; lit "script"; lit "source"; lit "track"; lit "video"]);
    (lit "srcset", [lit "img"; lit "source"]) ].

Record ParsedUrl : Type := mkParsedUrl {
  link : jsstring;
  error : option Error;
  url : option URL
}.

Definition relValuesToIgnore : list jsstring :=
  [lit "dns-prefetch"; lit "preconnect"].

(** [linksAttr[attr]]; every key the loop of [getLinks] visits is a key of
    the table. *)
Definition tags_of (attr : jsstring) : list jsstring :=
  match get linksAttr attr with Some tags => tags | None => [] end.

Definition parseAttr (name value : jsstring) : list jsstring :=
  if eqb name (lit "srcset")
  then map (fun pair => fst (split_spaces (trim pair))) (split comma value)
  else [value].

Section Links.

Context {parser : UrlParser}.

Definition parseLink (link baseUrl : jsstring) : ParsedUrl :=
  match new_URL link baseUrl with
  | inr url => mkParsedUrl link None (Some (set_hash_empty url))
  | inl error => mkParsedUrl link (Some error) None
  end.

Definition getBaseUrl (htmlBaseUrl oldBaseUrl : jsstring) : Error + jsstring :=
  if isAbsoluteUrl htmlBaseUrl then inr htmlBaseUrl
  else
    match new_URL htmlBaseUrl oldBaseUrl with
    | inr url => inr (href (set_hash_empty url))
    | inl error => inl error
    end.

(** The test that makes the callback of [each] return early. *)
Definition ignored (el : element) : bool :=
  eqb (tagName el) (lit "link") &&
  includes relValuesToIgnore (get (attribs el) (lit "rel")).

(** [for (const v of values) if (!!v) links.push(parseLink(v, realBaseUrl))] *)
Definition pushValues (realBaseUrl : jsstring) (values : list jsstring)
    (links : list ParsedUrl) : list ParsedUrl :=
  fold_left
    (fun links v =>
       if truthy v then links ++ [parseLink v realBaseUrl] else links)
    values links.

(** The callback given to [each].  An element reaches it through the
    selector [tag[attr]], so [element.attribs[attr]] is a string; the
    [None] branch is never taken (lemma [select_attribute_present]). *)
Definition eachElement (attr realBaseUrl : jsstring) (el : element)
    (links : list ParsedUrl) : list ParsedUrl :=
  match get (attribs el) attr with
  | None => links
  | Some value =>
      let values := parseAttr attr value in
      if ignored el then links
      else pushValues realBaseUrl values links
  end.

(** The body of [for (const attr of attrs)]. *)
Definition eachAttr (doc : document) (realBaseUrl : jsstring)
    (links : list ParsedUrl) (attr : jsstring) : list ParsedUrl :=
  let elements := map (fun tag => TagAttr tag attr) (tags_of attr) in
  fold_left (fun links el => eachElement attr realBaseUrl el links)
            (select elements doc) links.

(** [realBaseUrl] after the [<base>] handling at the head of [getLinks]. *)
Definition realBaseUrl (doc : document) (baseUrl : jsstring)
  : Error + jsstring :=
  match select [TagAttr (lit "base") (lit "href")] doc with
  | [] => inr baseUrl
  | first :: _ =>
      match get (attribs first) (lit "href") with
      | Some htmlBaseUrl => getBaseUrl htmlBaseUrl baseUrl
      | None => inr baseUrl
      end
  end.

(** [getLinks], after [cheerio.load(source)]. *)
Definition getLinks (doc : document) (baseUrl : jsstring)
  : Error + list ParsedUrl :=
  match realBaseUrl doc baseUrl with
  | inl error => inl error
  | inr realBase =>
      inr (fold_left (eachAttr doc realBase) (Object_keys linksAttr) [])
  end.

(** What one element adds to [links] when it is visited for [attr]. *)
Definition references (attr realBaseUrl : jsstring) (el : element)
  : list ParsedUrl :=
  match get (attribs el) attr with
  | None => []
  | Some value =>
      if ignored el then []
      else map (fun v => parseLink v realBaseUrl)
               (filter truthy (parseAttr attr value))
  end.

End Links.

(** Where a reference of the result comes from. *)
Definition origin {parser : UrlParser} (doc : document) (rb : jsstring)
    (p : ParsedUrl) : Prop :=
  exists attr el value v,
    In attr (Object_keys linksAttr) /\
    In el (elements doc) /\
    In (tagName el) (tags_of attr) /\
    get (attribs el) attr = Some value /\
    ignored el = false /\
    In v (parseAttr attr value) /\
    v <> [] /\
    p = parseLink v rb.

(** The specification's wording of a srcset candidate: the leading token
    delimited by white space. *)
Definition leading_token (pair : jsstring) : jsstring :=
  take_while (fun c => negb (is_space c)) (drop_while is_space pair).

(** [pieces.join(sep)] *)
Fixpoint join (sep : N) (pieces : list jsstring) : jsstring :=
  match pieces with
  | [] => []
  | [p] => p
  | p :: rest => p ++ sep :: join sep rest
  end.

(** A URL parser given by a finite table of inputs and results; every
    other input throws.  It serves to run the definitions on the pages of
    the test fixtures. *)
Definition table_parser (table : list ((jsstring * jsstring) * URL))
  : UrlParser :=
  fun input base =>
    match find (fun row => eqb (fst (fst row)) input &&
                           eqb (snd (fst row)) base) table with
    | Some row => inr (snd row)
    | None => inl (TypeError (lit "Invalid URL"))
    end.

(* ================================================================== *)
(** ** The crawl orchestrator *)

Module Crawl.

Local Open Scope N_scope.

(** Modelled from the spec: the orchestrator that owns the visited set and
    the work queue ([src/index.ts], which the tests import as [../src]) is
    not among the sources.  The definitions of this module follow sections
    3 and 4.3 of the specification: a VisitRecord is created the first time
    a CanonicalKey is enqueued, a dequeued key is either skipped or handed
    to the Fetch Client, and the children of a fetched page are enqueued
    only when no VisitRecord exists for their key.  The workers of the pool
    interleave at a single serialization point (section 5), so a run is a
    sequence of steps. *)
Definition CanonicalKey := jsstring.

Inductive LinkState : Type := OK | BROKEN | SKIPPED.

(** [UNSEEN] is the absence of a record. *)
Inductive KeyState : Type :=
| QUEUED
| FETCHING
| Done (state : LinkState).

Record VisitRecord : Type := mkVisit {
  vr_key : CanonicalKey;
  vr_state : KeyState;
  vr_status : option N;
  vr_parent : option CanonicalKey
}.

Record CrawlTarget : Type := mkTarget {
  root : CanonicalKey;
  skipPolicy : CanonicalKey -> bool;
  concurrency : nat
}.

(** The state of one crawl run: the VisitRecords in discovery order, the
    work queue, and the log of the invocations of the Fetch Client. *)
Record crawl : Type := mkCrawl {
  records : list VisitRecord;
  queue : list CanonicalKey;
  fetches : list CanonicalKey
}.

Definition keys (c : crawl) : list CanonicalKey := map vr_key (records c).

Definition seen (k : CanonicalKey) (rs : list VisitRecord) : bool :=
  existsb (fun r => eqb (vr_key r) k) rs.

Definition state_of (k : CanonicalKey) (rs : list VisitRecord)
  : option KeyState :=
  option_map vr_state (find (fun r => eqb (vr_key r) k) rs).

Definition set_state (k : CanonicalKey) (st : KeyState) (status : option N)
    (rs : list VisitRecord) : list VisitRecord :=
  map (fun r =>
         if eqb (vr_key r) k then mkVisit (vr_key r) st status (vr_parent r)
         else r)
      rs.

(** Modelled from the spec: step 5 of the algorithm of section 4.3, for
    one child reference.  The check of the visited set and the insertion
    are one atomic action (section 5). *)
Definition enqueue (parent : option CanonicalKey) (c : crawl)
    (k : CanonicalKey) : crawl :=
  if seen k (records c) then c
  else mkCrawl (records c ++ [mkVisit k QUEUED None parent])
               (queue c ++ [k]) (fetches c).

(** Modelled from the spec: step 5 over the child references of a page,
    in extraction order, repetitions included. *)
Definition discover (parent : option CanonicalKey)
    (children : list CanonicalKey) (c : crawl) : crawl :=
  fold_left (enqueue parent) children c.

(** Modelled from the spec: section 4.4.  The outcome of the Fetch
    Client is a status code, or [None] for a FetchFailure; a status of 400
    or more is [BROKEN]. *)
Definition classify (status : option N) : LinkState :=
  match status with
  | Some code => if 400 <=? code then BROKEN else OK
  | None => BROKEN
  end.

Definition is_fetching (r : VisitRecord) : bool :=
  match vr_state r with FETCHING => true | _ => false end.

Definition in_flight (rs : list VisitRecord) : nat :=
  List.length (filter is_fetching rs).

(** Modelled from the spec: step 1, the root enters [QUEUED]. *)
Definition seed (t : CrawlTarget) : crawl :=
  enqueue None (mkCrawl [] [] []) (root t).

(** Modelled from the spec: steps 2 to 5.  [step_skip] takes the head of
    the queue to [SKIPPED] without a fetch; [step_fetch] hands it to the
    Fetch Client, within the concurrency limit, and logs the invocation;
    [step_done] ends a fetch, classifies it and enqueues the children the
    page was expanded into (none when the recursion gate is closed). *)
Inductive step (t : CrawlTarget) : crawl -> crawl -> Prop :=
| step_skip k q rs fs :
    skipPolicy t k = true ->
    step t (mkCrawl rs (k :: q) fs)
           (mkCrawl (set_state k (Done SKIPPED) None rs) q fs)
| step_fetch k q rs fs :
    skipPolicy t k = false ->
    (in_flight rs < concurrency t)%nat ->
    step t (mkCrawl rs (k :: q) fs)
           (mkCrawl (set_state k FETCHING None rs) q (fs ++ [k]))
| step_done k status children c :
    state_of k (records c) = Some FETCHING ->
    step t c
      (discover (Some k) children
         (mkCrawl (set_state k (Done (classify status)) status (records c))
                  (queue c) (fetches c))).

(** The states of a crawl run. *)
Inductive reachable (t : CrawlTarget) : crawl -> Prop :=
| reach_seed : reachable t (seed t)
| reach_step c c' : reachable t c -> step t c c' -> reachable t c'.

(** The invariant carried along a run. *)
Definition not_queued (st : KeyState) : bool :=
  match st with QUEUED => false | _ => true end.

Record consistent (c : crawl) : Prop := mkConsistent {
  keys_nodup : NoDup (keys c);
  queue_nodup : NoDup (queue c);
  queue_queued : forall k, In k (queue c) ->
                           state_of k (records c) = Some QUEUED;
  fetches_nodup : NoDup (fetches c);
  fetches_started : forall k, In k (fetches c) ->
    exists st, state_of k (records c) = Some st /\ not_queued st = true
}.

Definition key_eq_dec : forall a b : CanonicalKey, {a = b} + {a <> b} :=
  list_eq_dec N.eq_dec.

Definition occurrences (k : CanonicalKey) (l : list CanonicalKey) : nat :=
  count_occ key_eq_dec l k.

End Crawl.

(* ================================================================== *)
(** ** Sample pages *)

Module Fixtures.

Definition el (tag : jsstring) (attrs : object jsstring) : node :=
  Tag (mkElement tag attrs) [].

Definition pageUrl : jsstring := lit "http://fake.local/pageBase/index".

Definition fake_local (segments : list jsstring) (frag : option jsstring)
  : URL :=
  mkURL (lit "http") [] [] (Some (lit "fake.local")) None
        (PathSegments segments) None frag.

(** What [new URL] answers on the inputs used below. *)
Definition node_URL : UrlParser :=
  table_parser
    [ ((lit "page.html#top", pageUrl),
       fake_local [lit "pageBase"; lit "page.html"] (Some (lit "top")));
      ((lit "anotherBase/", pageUrl),
       fake_local [lit "pageBase"; lit "anotherBase"; lit ""] None);
      ((lit "ok", lit "http://fake.local/pageBase/anotherBase/"),
       fake_local [lit "pageBase"; lit "anotherBase"; lit "ok"] None);
      ((lit "site.css", pageUrl),
       fake_local [lit "pageBase"; lit "site.css"] None);
      ((lit "a.png", pageUrl), fake_local [lit "pageBase"; lit "a.png"] None);
      ((lit "b.png", pageUrl), fake_local [lit "pageBase"; lit "b.png"] None);
      ((lit "mailto:foo #bar", pageUrl),
       mkURL (lit "mailto") [] [] None None (OpaquePath (lit "foo ")) None
             (Some (lit "bar")))
    ].

(** [<img src="a.png"><a href="b.html">b</a>] *)
Definition img_then_anchor : document :=
  [ el (lit "img") [(lit "src", lit "a.png")];
    Tag (mkElement (lit "a") [(lit "href", lit "b.html")]) [Text (lit "b")] ].

(** [<link rel="preconnect stylesheet" href="https://cdn.example/x.css">] *)
Definition link_two_rel_tokens : document :=
  [ el (lit "link") [(lit "rel", lit "preconnect stylesheet");
                     (lit "href", lit "https://cdn.example/x.css")] ].

(** [<link href="https://cdn.example/y.css">] *)
Definition link_without_rel : document :=
  [ el (lit "link") [(lit "href", lit "https://cdn.example/y.css")] ].

(** A page in the manner of the prefetch fixture:
    [<html><head>
       <link rel="preconnect" href="https://fonts.example">
       <link rel="dns-prefetch" href="//cdn.example">
       <link rel="stylesheet" href="site.css">
     </head><body></body></html>] *)
Definition preconnect_link : element :=
  mkElement (lit "link") [(lit "rel", lit "preconnect");
                          (lit "href", lit "https://fonts.example")].

Definition prefetch_page : document :=
  [ Tag (mkElement (lit "html") [])
      [ Tag (mkElement (lit "head") [])
          [ Tag preconnect_link [];
            el (lit "link") [(lit "rel", lit "dns-prefetch");
                             (lit "href", lit "//cdn.example")];
            el (lit "link") [(lit "rel", lit "stylesheet");
                             (lit "href", lit "site.css")] ];
        Tag (mkElement (lit "body") []) [] ] ].

(** Two [<base>] elements with an href after one without:
    [<base target="_blank"><base href="anotherBase/"><base href="/late/">
     <a href="ok">ok</a>] *)
Definition two_bases : document :=
  [ el (lit "base") [(lit "target", lit "_blank")];
    el (lit "base") [(lit "href", lit "anotherBase/")];
    el (lit "base") [(lit "href", lit "/late/")];
    Tag (mkElement (lit "a") [(lit "href", lit "ok")]) [Text (lit "ok")] ].

(** Link-bearing attributes on tags that are not registered for them:
    [<div href="x"><p src="y" srcset="z 2x"></p></div><span cite="w">] *)
Definition unregistered_pairs : document :=
  [ Tag (mkElement (lit "div") [(lit "href", lit "x")])
      [ el (lit "p") [(lit "src", lit "y"); (lit "srcset", lit "z 2x")] ];
    el (lit "span") [(lit "cite", lit "w")] ].

(** Registered and unregistered pairs side by side:
    [<div href="x"><a href="a.png"></a><img cite="c" src="b.png"></div>] *)
Definition mixed_pairs : document :=
  [ Tag (mkElement (lit "div") [(lit "href", lit "x")])
      [ el (lit "a") [(lit "href", lit "a.png")];
        el (lit "img") [(lit "cite", lit "c"); (lit "src", lit "b.png")] ] ].

(** A malformed link before two good ones:
    [<img src="a.png"><a href="http://[">bad</a><a href="site.css">ok</a>] *)
Definition malformed_anchor : element :=
  mkElement (lit "a") [(lit "href", lit "http://[")].

Definition malformed_then_ok : document :=
  [ el (lit "img") [(lit "src", lit "a.png")];
    Tag malformed_anchor [Text (lit "bad")];
    Tag (mkElement (lit "a") [(lit "href", lit "site.css")])
        [Text (lit "ok")] ].

(** [<img srcset="a.png 1x, b.png 2x,, ">] *)
Definition srcset_img : element :=
  mkElement (lit "img") [(lit "srcset", lit "a.png 1x, b.png 2x,, ")].

(** The run of the fixture that links to [http://fake.local/] twice:
    the root page has been dequeued and is being fetched. *)
Definition local_root : Crawl.CanonicalKey := lit "http://localhost:7890/".

Definition fake_home : Crawl.CanonicalKey := lit "http://fake.local/".

Definition twice_target : Crawl.CrawlTarget :=
  Crawl.mkTarget local_root (fun _ => false) 100.

Definition twice_fetching_root : Crawl.crawl :=
  Crawl.mkCrawl [Crawl.mkVisit local_root Crawl.FETCHING None None] []
                [local_root].

End Fixtures.

(* ================================================================== *)
(** ** Notions used to state further properties *)

(** The lower-case form of an ASCII letter; any other code unit is left
    as it is. *)
Definition to_lower (c : N) : N :=
  if ((65 <=? c) && (c <=? 90))%N then (c + 32)%N else c.

(** Every character class of [r] gives the same answer on [c] and on
    [f c]. *)
Fixpoint respects (f : N -> N) (r : regex) : Prop :=
  match r with
  | Void => True
  | Eps => True
  | Class p => forall c, p (f c) = p c
  | Seq r1 r2 => respects f r1 /\ respects f r2
  | Alt r1 r2 => respects f r1 /\ respects f r2
  | Star r1 => respects f r1
  end.

(** A code unit that may occur in a srcset token: neither white space
    nor a comma. *)
Definition token_char (c : N) : Prop := is_space c = false /\ c <> comma.

(** The text of one srcset candidate: a URL, then nothing or a
    descriptor that white space separates from the URL. *)
Definition candidate_text (cand : jsstring * jsstring) : jsstring :=
  fst cand ++ snd cand.

Definition well_formed_candidate (cand : jsstring * jsstring) : Prop :=
  fst cand <> [] /\
  Forall token_char (fst cand) /\
  ~ In comma (snd cand) /\
  (snd cand = [] \/ exists c d, snd cand = c :: d /\ is_space c = true).

Module MorePages.

(** The same anchor twice, as in the fixture that links to one page
    twice:
    [<a href="a.png">x</a><p><a href="a.png">x</a></p>] *)
Definition anchor : element :=
  mkElement (lit "a") [(lit "href", lit "a.png")].

Definition twice_page : document :=
  [ Tag anchor [Text (lit "x")];
    Tag (mkElement (lit "p") []) [Tag anchor [Text (lit "x")]] ].

(** [<a href="">empty</a>] *)
Definition empty_anchor : element :=
  mkElement (lit "a") [(lit "href", lit "")].

End MorePages.

(* ================================================================== *)
(** ** Facts about the matcher *)

Section StringFacts.

Lemma jseqb_eq (a b : jsstring) : JS.eqb a b = true <-> a = b.
Proof.
  revert b. induction a as [| x a IH]; intros [| y b]; simpl;
    try (split; [discriminate | congruence]); [tauto |].
  rewrite andb_true_iff, N.eqb_eq, IH. split.
  - intros [-> ->]. reflexivity.
  - intros E. injection E as -> ->. auto.
Qed.

Lemma jseqb_refl (a : jsstring) : JS.eqb a a = true.
Proof. now apply jseqb_eq. Qed.

Lemma jseqb_neq (a b : jsstring) : JS.eqb a b = false <-> a <> b.
Proof.
  rewrite <- jseqb_eq. destruct (JS.eqb a b); split; congruence.
Qed.

Lemma take_while_trim_end p s :
  take_while (fun c => negb (p c)) (trim_end_by p s) =
  take_while (fun c => negb (p c)) s.
Proof.
  induction s as [| c s IH]; simpl; auto.
  destruct (p c) eqn:Ec; simpl.
  - destruct (trim_end_by p s); simpl; now rewrite ?Ec.
  - destruct (trim_end_by p s) eqn:Et; simpl; rewrite Ec; simpl.
    + simpl in IH. now rewrite <- IH.
    + now rewrite <- IH.
Qed.

Lemma fst_split_spaces s :
  fst (split_spaces s) = take_while (fun c => negb (is_space c)) s.
Proof.
  unfold split_spaces. induction s as [| c s IH]; simpl; auto.
  destruct (is_space c); simpl.
  - now destruct (split_spaces_from true s).
  - destruct (split_spaces_from false s). simpl in *. now rewrite IH.
Qed.

Lemma first_token_leading pair :
  fst (split_spaces (trim pair)) = leading_token pair.
Proof.
  rewrite fst_split_spaces. unfold trim, trim_end, leading_token.
  now rewrite take_while_trim_end.
Qed.

Lemma join_split sep s : join sep (split sep s) = s.
Proof.
  unfold split. induction s as [| c s IH]; simpl; auto.
  destruct (split_pieces sep s) as [piece pieces].
  destruct (N.eqb_spec c sep) as [-> | _].
  - simpl in *. now rewrite IH.
  - destruct pieces; simpl in *; now rewrite IH.
Qed.

Lemma split_no_separator sep s :
  Forall (fun piece => ~ In sep piece) (split sep s).
Proof.
  unfold split. induction s as [| c s IH]; simpl.
  - constructor; auto.
  - destruct (split_pieces sep s) as [piece pieces].
    destruct (N.eqb_spec c sep) as [-> | Hne].
    + constructor; auto.
    + inversion IH as [| ? ? Hp Hps]; subst. constructor; auto.
      simpl. intros [E | H]; auto.
Qed.

End StringFacts.

Section RegexFacts.

Lemma void_inv s : ~ matches Void s.
Proof. intros H; inversion H. Qed.

Lemma eps_inv s : matches Eps s -> s = [].
Proof. intros H; inversion H; reflexivity. Qed.

Lemma class_inv p s : matches (Class p) s -> exists c, s = [c] /\ p c = true.
Proof. intros H; inversion H; subst; eauto. Qed.

Lemma seq_inv r1 r2 s :
  matches (Seq r1 r2) s ->
  exists s1 s2, s = s1 ++ s2 /\ matches r1 s1 /\ matches r2 s2.
Proof. intros H; inversion H; subst; eauto. Qed.

Lemma alt_inv r1 r2 s : matches (Alt r1 r2) s -> matches r1 s \/ matches r2 s.
Proof. intros H; inversion H; subst; auto. Qed.

Lemma seq_cons r1 r2 c s1 s2 :
  matches r1 (c :: s1) -> matches r2 s2 -> matches (Seq r1 r2) (c :: s1 ++ s2).
Proof. intros H1 H2. apply (MSeq H1 H2). Qed.

Lemma nullable_matches r : nullable r = true <-> matches r [].
Proof.
  split.
  - induction r; simpl; intros H; try discriminate.
    + constructor.
    + apply andb_true_iff in H as [H1 H2].
      apply (@MSeq r1 r2 [] []); auto.
    + apply orb_true_iff in H as [H | H]; [apply MAltL | apply MAltR]; auto.
    + constructor.
  - intros H. remember [] as s eqn:Es.
    induction H; simpl; auto; try discriminate.
    + apply app_eq_nil in Es as [-> ->]. rewrite IHmatches1, IHmatches2; auto.
    + rewrite IHmatches; auto.
    + rewrite IHmatches; auto. apply orb_true_r.
Qed.

Lemma star_cons_inv r c s :
  matches (Star r) (c :: s) ->
  exists s1 s2, s = s1 ++ s2 /\ matches r (c :: s1) /\ matches (Star r) s2.
Proof.
  intros H. remember (Star r) as r' eqn:Er. remember (c :: s) as w eqn:Ew.
  revert c s Ew.
  induction H as [| | | | | | r0 s1 s2 H1 _ H2 IH2];
    intros c0 s0 Ew; try discriminate.
  injection Er as ->.
  destruct s1 as [| x s1].
  - simpl in Ew. apply IH2; auto.
  - simpl in Ew. injection Ew as -> <-.
    exists s1, s2. auto.
Qed.

Lemma deriv_matches c r s : matches (deriv c r) s <-> matches r (c :: s).
Proof.
  revert s. induction r as [| | p | r1 IH1 r2 IH2 | r1 IH1 r2 IH2 | r IH];
    intros s; simpl.
  - split; intros H; now apply void_inv in H.
  - split; intros H; [now apply void_inv in H | now apply eps_inv in H].
  - destruct (p c) eqn:Ep; split; intros H.
    + apply eps_inv in H as ->. now constructor.
    + apply class_inv in H as (x & E & _). injection E as _ ->. constructor.
    + now apply void_inv in H.
    + apply class_inv in H as (x & E & Hx). injection E as -> _. congruence.
  - destruct (nullable r1) eqn:En; split; intros H.
    + apply alt_inv in H as [H | H].
      * apply seq_inv in H as (s1 & s2 & -> & H1 & H2).
        apply seq_cons; auto. now apply IH1.
      * apply (@MSeq r1 r2 [] (c :: s)); [now apply nullable_matches |].
        now apply IH2.
    + apply seq_inv in H as (s1 & s2 & E & H1 & H2).
      destruct s1 as [| x s1]; simpl in E.
      * subst s2. apply MAltR. now apply IH2.
      * injection E as <- ->. apply MAltL. constructor; auto. now apply IH1.
    + apply seq_inv in H as (s1 & s2 & -> & H1 & H2).
      apply seq_cons; auto. now apply IH1.
    + apply seq_inv in H as (s1 & s2 & E & H1 & H2).
      destruct s1 as [| x s1]; simpl in E.
      * apply nullable_matches in H1. congruence.
      * injection E as <- ->. constructor; auto. now apply IH1.
  - split; intros H.
    + apply alt_inv in H as [H | H];
        [apply MAltL; now apply IH1 | apply MAltR; now apply IH2].
    + apply alt_inv in H as [H | H];
        [apply MAltL; now apply IH1 | apply MAltR; now apply IH2].
  - split; intros H.
    + apply seq_inv in H as (s1 & s2 & -> & H1 & H2).
      apply (@MStarApp r (c :: s1) s2); auto. now apply IH.
    + apply star_cons_inv in H as (s1 & s2 & -> & H1 & H2).
      constructor; auto. now apply IH.
Qed.

Lemma test_anchored_spec r s :
  test_anchored r s = true <->
  exists p rest, s = p ++ rest /\ matches r p.
Proof.
  revert r. induction s as [| c s IH]; intros r; simpl.
  - rewrite orb_false_r, nullable_matches. split.
    + intros H. exists [], []. auto.
    + intros (p & rest & E & H). symmetry in E.
      apply app_eq_nil in E as [-> _]. auto.
  - rewrite orb_true_iff, nullable_matches, IH. split.
    + intros [H | (p & rest & -> & H)].
      * exists [], (c :: s). auto.
      * exists (c :: p), rest. split; auto. now apply deriv_matches.
    + intros (p & rest & E & H). destruct p as [| x p]; simpl in E.
      * left. auto.
      * injection E as <- ->. right. exists p, rest. split; auto.
        now apply deriv_matches.
Qed.

Lemma star_class_matches p s :
  matches (Star (Class p)) s <-> Forall (fun x => p x = true) s.
Proof.
  split.
  - intros H. remember (Star (Class p)) as r eqn:Er.
    induction H as [| | | | | | r0 s1 s2 H1 _ H2 IH2]; try discriminate; auto.
    injection Er as ->. apply Forall_app. split; auto.
    apply class_inv in H1 as (x & -> & Hx). auto.
  - induction 1 as [| x l Hx _ IH].
    + constructor.
    + apply (@MStarApp (Class p) [x] l); auto. now constructor.
Qed.

Lemma chr_matches c s : matches (Chr c) s <-> s = [c].
Proof.
  unfold Chr. split.
  - intros H. apply class_inv in H as (x & -> & Hx).
    apply N.eqb_eq in Hx. now subst.
  - intros ->. constructor. apply N.eqb_refl.
Qed.

Lemma windows_path_re_spec s :
  test_anchored windows_path_re s = true <-> windows_drive_path s.
Proof.
  rewrite test_anchored_spec. unfold windows_path_re, windows_drive_path.
  split.
  - intros (p & rest & -> & H).
    apply seq_inv in H as (s1 & s2 & -> & H1 & H2).
    apply class_inv in H1 as (c & -> & Hc).
    apply seq_inv in H2 as (s3 & s4 & -> & H3 & H4).
    apply chr_matches in H3, H4. subst. simpl. eauto.
  - intros (c & rest & -> & Hc).
    exists [c; colon; backslash], rest. split; auto.
    apply (@MSeq _ _ [c] [colon; backslash]); [now constructor |].
    apply (@MSeq _ _ [colon] [backslash]); now apply chr_matches.
Qed.

Lemma scheme_re_spec s :
  test_anchored scheme_re s = true <-> scheme_prefix s.
Proof.
  rewrite test_anchored_spec. unfold scheme_re, scheme_prefix.
  split.
  - intros (p & rest & -> & H).
    apply seq_inv in H as (s1 & s2 & -> & H1 & H2).
    apply class_inv in H1 as (c & -> & Hc).
    apply seq_inv in H2 as (s3 & s4 & -> & H3 & H4).
    apply chr_matches in H4. subst. apply star_class_matches in H3.
    exists c, s3, rest. simpl. rewrite <- app_assoc. simpl. auto.
  - intros (c & body & rest & -> & Hc & Hb).
    exists (c :: body ++ [colon]), rest. split.
    + simpl. rewrite <- app_assoc. reflexivity.
    + apply (@MSeq _ _ [c] (body ++ [colon])); [now constructor |].
      constructor; [now apply star_class_matches | now apply chr_matches].
Qed.

End RegexFacts.

(* ================================================================== *)
(** ** Facts about [src/links.ts] *)

Section LinksFacts.

Context {parser : UrlParser}.

Lemma inr_injective (A B : Type) (x y : B) : @inr A B x = inr y -> x = y.
Proof. congruence. Qed.

Lemma pushValues_app rb values links :
  pushValues rb values links =
  links ++ map (fun v => parseLink v rb) (filter truthy values).
Proof.
  unfold pushValues. revert links.
  induction values as [| v values IH]; intros links; simpl.
  - now rewrite app_nil_r.
  - rewrite IH. destruct (truthy v); simpl; auto.
    now rewrite <- app_assoc.
Qed.

Lemma eachElement_app attr rb el links :
  eachElement attr rb el links = links ++ references attr rb el.
Proof.
  unfold eachElement, references.
  destruct (get (attribs el) attr) as [value |]; [| now rewrite app_nil_r].
  destruct (ignored el); [now rewrite app_nil_r |].
  apply pushValues_app.
Qed.

Lemma fold_eachElement attr rb els links :
  fold_left (fun links el => eachElement attr rb el links) els links =
  links ++ flat_map (references attr rb) els.
Proof.
  revert links. induction els as [| el els IH]; intros links; simpl.
  - now rewrite app_nil_r.
  - rewrite IH, eachElement_app. now rewrite <- app_assoc.
Qed.

(** The elements the loop visits for [attr]. *)
Lemma select_registered attr tags doc :
  select (map (fun tag => TagAttr tag attr) tags) doc =
  filter (fun e => existsb (JS.eqb (tagName e)) tags && has_attrib e attr)
         (elements doc).
Proof.
  unfold select. apply filter_ext. intros e.
  induction tags as [| tag tags IH]; simpl; auto.
  rewrite IH. destruct (JS.eqb (tagName e) tag), (has_attrib e attr); simpl;
    auto.
  now rewrite andb_false_r.
Qed.

(** The [None] branch of [eachElement] is dead code. *)
Lemma select_attribute_present attr tags doc el :
  In el (select (map (fun tag => TagAttr tag attr) tags) doc) ->
  exists value, get (attribs el) attr = Some value.
Proof.
  rewrite select_registered, filter_In. intros [_ H].
  apply andb_true_iff in H as [_ H]. unfold has_attrib in H.
  destruct (get (attribs el) attr) as [value |]; [eauto | discriminate].
Qed.

Lemma fold_eachAttr doc rb attrs links :
  fold_left (eachAttr doc rb) attrs links =
  links ++
  flat_map (fun attr =>
              flat_map (references attr rb)
                (filter (fun e => existsb (JS.eqb (tagName e)) (tags_of attr)
                                  && has_attrib e attr)
                        (elements doc)))
           attrs.
Proof.
  revert links. induction attrs as [| attr attrs IH]; intros links; simpl.
  - now rewrite app_nil_r.
  - rewrite IH. unfold eachAttr.
    rewrite fold_eachElement, select_registered. now rewrite <- app_assoc.
Qed.

Lemma getLinks_closed doc baseUrl :
  getLinks doc baseUrl =
  match realBaseUrl doc baseUrl with
  | inl e => inl e
  | inr rb =>
      inr (flat_map
             (fun attr =>
                flat_map (references attr rb)
                  (filter (fun e =>
                             existsb (JS.eqb (tagName e)) (tags_of attr)
                             && has_attrib e attr)
                          (elements doc)))
             (Object_keys linksAttr))
  end.
Proof.
  unfold getLinks. destruct (realBaseUrl doc baseUrl); auto.
  now rewrite fold_eachAttr.
Qed.

Lemma existsb_eqb_In x l : existsb (JS.eqb x) l = true <-> In x l.
Proof.
  rewrite existsb_exists. split.
  - intros (y & Hy & E). apply jseqb_eq in E. now subst.
  - intros H. exists x. split; auto. apply jseqb_refl.
Qed.

Lemma truthy_nonempty v : truthy v = true <-> v <> [].
Proof. destruct v; simpl; split; congruence. Qed.

Lemma In_getLinks doc baseUrl rb links :
  realBaseUrl doc baseUrl = inr rb ->
  getLinks doc baseUrl = inr links ->
  forall p, In p links <-> origin doc rb p.
Proof.
  intros Hrb Hl p. rewrite getLinks_closed, Hrb in Hl.
  apply inr_injective in Hl. subst links.
  unfold origin. rewrite in_flat_map. split.
  - intros (attr & Hattr & Hp). apply in_flat_map in Hp as (el & Hel & Hp).
    apply filter_In in Hel as [Hel Hsel].
    apply andb_true_iff in Hsel as [Htag _].
    apply existsb_eqb_In in Htag.
    unfold references in Hp.
    destruct (get (attribs el) attr) as [value |] eqn:Eg; [| contradiction].
    destruct (ignored el) eqn:Ei; [contradiction |].
    apply in_map_iff in Hp as (v & <- & Hv).
    apply filter_In in Hv as [Hv Ht]. apply truthy_nonempty in Ht.
    exists attr, el, value, v. auto 10.
  - intros (attr & el & value & v & Hattr & Hel & Htag & Eg & Ei & Hv & Hne
            & ->).
    exists attr. split; auto. apply in_flat_map. exists el. split.
    + apply filter_In. split; auto. apply andb_true_iff. split.
      * now apply existsb_eqb_In.
      * unfold has_attrib. now rewrite Eg.
    + unfold references. rewrite Eg, Ei. apply in_map_iff. exists v.
      split; auto. apply filter_In. split; auto. now apply truthy_nonempty.
Qed.

Lemma getLinks_inr doc baseUrl links :
  getLinks doc baseUrl = inr links ->
  exists rb, realBaseUrl doc baseUrl = inr rb.
Proof.
  unfold getLinks. destruct (realBaseUrl doc baseUrl) as [e | rb]; eauto.
  discriminate.
Qed.

Lemma link_parseLink v rb : link (parseLink v rb) = v.
Proof. unfold parseLink. now destruct (new_URL v rb). Qed.

Lemma ignored_spec el :
  ignored el = true <->
  tagName el = lit "link" /\
  (get (attribs el) (lit "rel") = Some (lit "dns-prefetch") \/
   get (attribs el) (lit "rel") = Some (lit "preconnect")).
Proof.
  unfold ignored. rewrite andb_true_iff, jseqb_eq.
  destruct (get (attribs el) (lit "rel")) as [r |]; simpl.
  - rewrite !orb_true_iff, !jseqb_eq. split.
    + intros [Ht [-> | [-> | H]]]; auto. discriminate.
    + intros [Ht [E | E]]; injection E as ->; auto.
  - split; [intros [_ H]; discriminate | intros [_ [H | H]]; discriminate].
Qed.

Lemma nil_of_no_member (A : Type) (l : list A) :
  (forall x, ~ In x l) -> l = [].
Proof.
  destruct l as [| x l]; auto. intros H. exfalso. apply (H x). now left.
Qed.

(** The element that decides [realBaseUrl]. *)
Lemma select_first (f : element -> bool) pre b post :
  (forall e, In e pre -> f e = false) -> f b = true ->
  filter f (pre ++ b :: post) = b :: filter f post.
Proof.
  intros Hpre Hb. induction pre as [| e pre IH]; simpl.
  - now rewrite Hb.
  - rewrite (Hpre e) by now left. apply IH. intros e' He'. apply Hpre.
    now right.
Qed.

Lemma block_split (A B : Type) (sel : A -> bool) (refs : A -> list B)
    (pre post : list A) (x : A) :
  sel x = true ->
  flat_map refs (filter sel (pre ++ x :: post)) =
  flat_map refs (filter sel pre) ++ refs x ++
  flat_map refs (filter sel post).
Proof.
  intros Hs. rewrite filter_app, flat_map_app. f_equal.
  simpl. now rewrite Hs.
Qed.

End LinksFacts.

(* ================================================================== *)
(** ** The claims about [src/links.ts] *)

Section LinksClaims.

Context {parser : UrlParser}.

(** C2. When [new URL(link, baseUrl)] succeeds, the [url] of the result of
    [parseLink] is the parsed URL with its fragment removed: its [hash] is
    the empty string, whether or not the raw value carried a fragment.
    Scheme, credentials, host, port and query are the ones the parser
    produced, and so is the path, up to the trailing spaces of an opaque
    path without query, which the assignment to [hash] strips. *)
Theorem parseLink_strips_fragment (link baseUrl : jsstring) (resolved : URL) :
  new_URL link baseUrl = inr resolved ->
  exists u,
    url (parseLink link baseUrl) = Some u /\
    error (parseLink link baseUrl) = None /\
    hash u = [] /\
    fragment u = None /\
    (scheme u, username u, password u, host u, port u, query u) =
    (scheme resolved, username resolved, password resolved, host resolved,
     port resolved, query resolved) /\
    path u =
    match path resolved, query resolved with
    | OpaquePath p, None => OpaquePath (strip_trailing_spaces p)
    | p, _ => p
    end.
Proof.
  intros H. unfold parseLink. rewrite H. simpl.
  exists (set_hash_empty resolved). repeat split.
Qed.

(** C8. A non-empty value that [new URL] rejects does not make [parseLink]
    throw: the result has [error] set, no [url], and the raw text as
    [link].  Extraction goes on: the loop over the values continues with
    the values that follow; [getLinks] returns whenever [realBaseUrl] was
    computed, its result holds the reference of every non-empty value of
    every visited element, and where the rejected value occurs its error
    record is followed by the references of the later values of the
    element and of the later elements of the document. *)
Theorem parseLink_malformed (v baseUrl : jsstring) (e : Error) :
  v <> [] ->
  new_URL v baseUrl = inl e ->
  parseLink v baseUrl = mkParsedUrl v (Some e) None /\
  (forall rest links,
      pushValues baseUrl (v :: rest) links =
      pushValues baseUrl rest (links ++ [mkParsedUrl v (Some e) None])) /\
  (forall doc pageUrl,
      realBaseUrl doc pageUrl = inr baseUrl ->
      exists links,
        getLinks doc pageUrl = inr links /\
        (forall attr el value w,
            In attr (Object_keys linksAttr) ->
            In el (elements doc) ->
            In (tagName el) (tags_of attr) ->
            get (attribs el) attr = Some value ->
            ignored el = false ->
            In w (parseAttr attr value) ->
            w <> [] ->
            In (parseLink w baseUrl) links) /\
        (forall attr el value pre post vs1 vs2,
            elements doc = pre ++ el :: post ->
            In attr (Object_keys linksAttr) ->
            In (tagName el) (tags_of attr) ->
            get (attribs el) attr = Some value ->
            ignored el = false ->
            parseAttr attr value = vs1 ++ v :: vs2 ->
            exists before after,
              links =
              before ++
              mkParsedUrl v (Some e) None ::
              map (fun w => parseLink w baseUrl) (filter truthy vs2) ++
              flat_map (references attr baseUrl)
                (filter (fun x => existsb (JS.eqb (tagName x)) (tags_of attr)
                                  && has_attrib x attr)
                        post) ++
              after)).
Proof.
  intros Hv He.
  assert (Hp : parseLink v baseUrl = mkParsedUrl v (Some e) None).
  { unfold parseLink. now rewrite He. }
  split; [exact Hp |]. split.
  - intros rest links. unfold pushValues. simpl.
    apply truthy_nonempty in Hv. now rewrite Hv, Hp.
  - intros doc pageUrl Hrb.
    set (block := fun a : jsstring =>
           flat_map (references a baseUrl)
             (filter (fun x => existsb (JS.eqb (tagName x)) (tags_of a)
                               && has_attrib x a)
                     (elements doc))).
    assert (Hl : getLinks doc pageUrl =
                 inr (flat_map block (Object_keys linksAttr))).
    { rewrite getLinks_closed, Hrb. reflexivity. }
    exists (flat_map block (Object_keys linksAttr)).
    split; [exact Hl |]. split.
    + intros attr el value w Ha Hel Ht Hg Hi Hw Hne.
      apply (In_getLinks _ _ Hrb Hl). exists attr, el, value, w. auto 10.
    + intros attr el value pre post vs1 vs2 Hel Ha Ht Hg Hi Hvs.
      destruct (in_split _ _ Ha) as (k1 & k2 & Ek). rewrite Ek.
      assert (Hsel : existsb (JS.eqb (tagName el)) (tags_of attr)
                     && has_attrib el attr = true).
      { unfold has_attrib. rewrite Hg.
        apply andb_true_iff. split; auto. now apply existsb_eqb_In. }
      assert (Hrefs : references attr baseUrl el =
                map (fun w => parseLink w baseUrl) (filter truthy vs1) ++
                mkParsedUrl v (Some e) None ::
                map (fun w => parseLink w baseUrl) (filter truthy vs2)).
      { unfold references. rewrite Hg, Hi, Hvs, filter_app, map_app.
        simpl. apply truthy_nonempty in Hv. rewrite Hv. simpl.
        now rewrite Hp. }
      assert (Hblock : block attr =
                flat_map (references attr baseUrl)
                  (filter (fun x => existsb (JS.eqb (tagName x))
                                      (tags_of attr) && has_attrib x attr)
                          pre) ++
                references attr baseUrl el ++
                flat_map (references attr baseUrl)
                  (filter (fun x => existsb (JS.eqb (tagName x))
                                      (tags_of attr) && has_attrib x attr)
                          post)).
      { unfold block. rewrite Hel. now apply block_split. }
      exists (flat_map block k1 ++
              flat_map (references attr baseUrl)
                (filter (fun x => existsb (JS.eqb (tagName x)) (tags_of attr)
                                  && has_attrib x attr)
                        pre) ++
              map (fun w => parseLink w baseUrl) (filter truthy vs1)),
             (flat_map block k2).
      rewrite flat_map_app.
      change (flat_map block (attr :: k2))
        with (block attr ++ flat_map block k2).
      rewrite Hblock, Hrefs. rewrite <- !app_assoc.
      reflexivity.
Qed.

(** C5. [isAbsoluteUrl] answers true exactly for the strings that begin
    with a URI scheme (a letter, then letters, digits, [+], [-] or [.],
    then [:]) and are not a Windows drive path (a letter, then [:\]);
    [getBaseUrl] returns an absolute value as it is and resolves every
    other value against the base URL. *)
Theorem isAbsoluteUrl_classification (value oldBaseUrl : jsstring) :
  (isAbsoluteUrl value = true <->
   scheme_prefix value /\ ~ windows_drive_path value) /\
  getBaseUrl value oldBaseUrl =
  (if isAbsoluteUrl value then inr value
   else match new_URL value oldBaseUrl with
        | inr u => inr (href (set_hash_empty u))
        | inl e => inl e
        end).
Proof.
  split; [| reflexivity].
  unfold isAbsoluteUrl. rewrite <- windows_path_re_spec, <- scheme_re_spec.
  destruct (test_anchored windows_path_re value); split.
  - discriminate.
  - intros [_ H]. exfalso. now apply H.
  - intros H. split; auto.
  - tauto.
Qed.

(** C6. For [srcset], [parseAttr] splits the value on commas and keeps,
    for each piece, its leading token delimited by white space; an
    element registered for [srcset] adds one reference for each non-empty
    token, in order, and nothing for an empty one. *)
Theorem srcset_candidates (value rb : jsstring) (el : element)
    (links : list ParsedUrl) :
  In (tagName el) (tags_of (lit "srcset")) ->
  get (attribs el) (lit "srcset") = Some value ->
  parseAttr (lit "srcset") value = map leading_token (split comma value) /\
  join comma (split comma value) = value /\
  Forall (fun pair => ~ In comma pair) (split comma value) /\
  eachElement (lit "srcset") rb el links =
  links ++ map (fun v => parseLink v rb)
               (filter truthy (map leading_token (split comma value))).
Proof.
  intros Htag Hget.
  assert (Hp : parseAttr (lit "srcset") value =
               map leading_token (split comma value)).
  { unfold parseAttr. rewrite jseqb_refl. apply map_ext.
    intros pair. apply first_token_leading. }
  split; [exact Hp |]. split; [apply join_split |].
  split; [apply split_no_separator |].
  rewrite eachElement_app. unfold references. rewrite Hget, Hp.
  assert (Hi : ignored el = false).
  { unfold ignored. simpl in Htag.
    destruct Htag as [<- | [<- | []]]; reflexivity. }
  now rewrite Hi.
Qed.

(** C9. [getLinks] lists the references attribute by attribute, in the
    order of the keys of the table, and in document order within one
    attribute; on [<img src="a.png"><a href="b.html">b</a>] the reference
    of the [img], first in the markup, comes after the one of the [a]. *)
Theorem getLinks_order (doc : document) (baseUrl : jsstring) :
  getLinks doc baseUrl =
  match realBaseUrl doc baseUrl with
  | inl e => inl e
  | inr rb =>
      inr (flat_map
             (fun attr =>
                flat_map (references attr rb)
                  (filter (fun e =>
                             existsb (JS.eqb (tagName e)) (tags_of attr)
                             && has_attrib e attr)
                          (elements doc)))
             [lit "background"; lit "cite"; lit "data"; lit "href";
              lit "icon"; lit "longdesc"; lit "manifest"; lit "poster";
              lit "pluginspage"; lit "pluginurl"; lit "src"; lit "srcset"])
  end /\
  elements Fixtures.img_then_anchor =
  [mkElement (lit "img") [(lit "src", lit "a.png")];
   mkElement (lit "a") [(lit "href", lit "b.html")]] /\
  getLinks Fixtures.img_then_anchor baseUrl =
  inr [parseLink (lit "b.html") baseUrl; parseLink (lit "a.png") baseUrl].
Proof.
  split; [apply getLinks_closed |]. split; reflexivity.
Qed.

(** C10. The early return is taken exactly when the tag is [link] and the
    [rel] attribute is the string [dns-prefetch] or the string
    [preconnect]; a [link] with [rel="preconnect stylesheet"] and a [link]
    without [rel] both have their [href] extracted. *)
Theorem exclusion_needs_exact_rel (baseUrl : jsstring) :
  (forall el,
      ignored el = true <->
      tagName el = lit "link" /\
      (get (attribs el) (lit "rel") = Some (lit "dns-prefetch") \/
       get (attribs el) (lit "rel") = Some (lit "preconnect"))) /\
  getLinks Fixtures.link_two_rel_tokens baseUrl =
  inr [parseLink (lit "https://cdn.example/x.css") baseUrl] /\
  getLinks Fixtures.link_without_rel baseUrl =
  inr [parseLink (lit "https://cdn.example/y.css") baseUrl].
Proof.
  split; [exact ignored_spec |]. split; reflexivity.
Qed.

(** C7. Every reference returned by [getLinks] is a value of an attribute
    of the table read on an element whose tag is registered for that
    attribute; when no element of the document carries an attribute for
    which its tag is registered, nothing is returned, whatever attributes
    the markup has on other tags. *)
Theorem only_registered_tags (doc : document) (baseUrl : jsstring)
    (links : list ParsedUrl) :
  getLinks doc baseUrl = inr links ->
  tags_of (lit "href") = [lit "a"; lit "area"; lit "embed"; lit "link"] /\
  (forall p, In p links ->
     exists attr el value,
       In attr (Object_keys linksAttr) /\
       In el (elements doc) /\
       In (tagName el) (tags_of attr) /\
       get (attribs el) attr = Some value /\
       In (link p) (parseAttr attr value)) /\
  ((forall el attr, In el (elements doc) ->
                    In (tagName el) (tags_of attr) ->
                    get (attribs el) attr = None) ->
   links = []).
Proof.
  intros Hl. destruct (getLinks_inr _ _ Hl) as [rb Hrb].
  split; [reflexivity |]. split.
  - intros p Hp. apply (In_getLinks _ _ Hrb Hl) in Hp.
    destruct Hp as (attr & el & value & v & Ha & He & Ht & Hg & _ & Hv & _
                    & ->).
    exists attr, el, value. rewrite link_parseLink. auto.
  - intros Hnone. apply nil_of_no_member. intros p Hp.
    apply (In_getLinks _ _ Hrb Hl) in Hp.
    destruct Hp as (attr & el & value & v & _ & He & Ht & Hg & _).
    rewrite (Hnone el attr He Ht) in Hg. discriminate.
Qed.

(** C3. A [link] element whose [rel] is [dns-prefetch] or [preconnect]
    adds nothing to the result, for any attribute; every reference of the
    result comes from an element that is not such a [link], and each
    non-empty value of a registered attribute of such an element is in the
    result. *)
Theorem link_hints_not_extracted (doc : document) (baseUrl rel : jsstring)
    (hint : element) (links : list ParsedUrl) :
  getLinks doc baseUrl = inr links ->
  In hint (elements doc) ->
  tagName hint = lit "link" ->
  get (attribs hint) (lit "rel") = Some rel ->
  rel = lit "dns-prefetch" \/ rel = lit "preconnect" ->
  (forall attr rb acc, eachElement attr rb hint acc = acc) /\
  exists rb,
    realBaseUrl doc baseUrl = inr rb /\
    (forall p, In p links ->
       exists attr el value,
         In el (elements doc) /\ el <> hint /\
         In (tagName el) (tags_of attr) /\
         get (attribs el) attr = Some value /\
         In (link p) (parseAttr attr value)) /\
    (forall attr el value v,
       In attr (Object_keys linksAttr) ->
       In el (elements doc) ->
       In (tagName el) (tags_of attr) ->
       get (attribs el) attr = Some value ->
       ignored el = false ->
       In v (parseAttr attr value) -> v <> [] ->
       In (parseLink v rb) links).
Proof.
  intros Hl Hin Htag Hrel Hval.
  assert (Hi : ignored hint = true).
  { apply ignored_spec. split; auto. rewrite Hrel.
    destruct Hval as [-> | ->]; auto. }
  split.
  - intros attr rb acc. rewrite eachElement_app. unfold references.
    rewrite Hi. destruct (get (attribs hint) attr); apply app_nil_r.
  - destruct (getLinks_inr _ _ Hl) as [rb Hrb]. exists rb.
    split; [exact Hrb |]. split.
    + intros p Hp. apply (In_getLinks _ _ Hrb Hl) in Hp.
      destruct Hp as (attr & el & value & v & _ & He & Ht & Hg & Hni & Hv
                      & _ & ->).
      exists attr, el, value. rewrite link_parseLink.
      repeat split; auto. intros ->. congruence.
    + intros attr el value v Ha He Ht Hg Hni Hv Hne.
      apply (In_getLinks _ _ Hrb Hl). exists attr, el, value, v. auto 10.
Qed.

(** C4. When the first [<base>] element that has an [href] carries the
    value [h], whatever elements follow it, [realBaseUrl] is [h] itself if
    [h] is absolute, and otherwise [h] resolved against the URL of the
    page ([getLinks] throws when that resolution fails); every reference
    of the result is resolved against [realBaseUrl]. *)
Theorem base_href_first (doc : document) (baseUrl h : jsstring)
    (pre post : list element) (b : element) :
  elements doc = pre ++ b :: post ->
  (forall e, In e pre ->
             tagName e = lit "base" -> get (attribs e) (lit "href") = None) ->
  tagName b = lit "base" ->
  get (attribs b) (lit "href") = Some h ->
  realBaseUrl doc baseUrl =
  (if isAbsoluteUrl h then inr h
   else match new_URL h baseUrl with
        | inr u => inr (href (set_hash_empty u))
        | inl e => inl e
        end) /\
  (forall links,
      getLinks doc baseUrl = inr links ->
      exists rb,
        realBaseUrl doc baseUrl = inr rb /\
        forall p, In p links -> p = parseLink (link p) rb).
Proof.
  intros Hel Hpre Htag Hget. split.
  - unfold realBaseUrl, select. rewrite Hel.
    rewrite select_first with (b := b).
    + now rewrite Hget.
    + intros e He. simpl. rewrite orb_false_r.
      destruct (JS.eqb (tagName e) (lit "base")) eqn:Et; auto.
      apply jseqb_eq in Et. unfold has_attrib. now rewrite (Hpre e He Et).
    + simpl. rewrite orb_false_r, Htag. unfold has_attrib. now rewrite Hget.
  - intros links Hl. destruct (getLinks_inr _ _ Hl) as [rb Hrb].
    exists rb. split; auto. intros p Hp.
    apply (In_getLinks _ _ Hrb Hl) in Hp.
    destruct Hp as (attr & el & value & v & _ & _ & _ & _ & _ & _ & _ & ->).
    now rewrite link_parseLink.
Qed.

End LinksClaims.

(* ================================================================== *)
(** ** Facts about the orchestrator *)

Section CrawlFacts.

Import Crawl.

Lemma NoDup_snoc (A : Type) (l : list A) (x : A) :
  NoDup l -> ~ In x l -> NoDup (l ++ [x]).
Proof.
  induction 1 as [| y l Hy Hl IH]; intros Hx; simpl.
  - constructor; auto. constructor.
  - constructor.
    + rewrite in_app_iff. simpl. intros [H | [H | []]]; auto.
      subst. apply Hx. now left.
    + apply IH. intros H. apply Hx. now right.
Qed.

Lemma keys_set_state k st status rs :
  map vr_key (set_state k st status rs) = map vr_key rs.
Proof.
  unfold set_state. rewrite map_map. apply map_ext. intros r.
  now destruct (JS.eqb (vr_key r) k).
Qed.

Lemma seen_In k rs : seen k rs = true <-> In k (map vr_key rs).
Proof.
  unfold seen. rewrite existsb_exists, in_map_iff. split.
  - intros (r & Hr & E). apply jseqb_eq in E. eauto.
  - intros (r & E & Hr). exists r. split; auto. now apply jseqb_eq.
Qed.

Lemma state_of_None k rs : state_of k rs = None <-> ~ In k (map vr_key rs).
Proof.
  unfold state_of. induction rs as [| r rs IH]; simpl.
  - tauto.
  - destruct (JS.eqb (vr_key r) k) eqn:E; simpl.
    + apply jseqb_eq in E. split; [discriminate | intros H].
      exfalso. apply H. now left.
    + apply jseqb_neq in E. rewrite IH. tauto.
Qed.

Lemma state_of_Some k rs st :
  state_of k rs = Some st -> In k (map vr_key rs).
Proof.
  intros H. destruct (in_dec key_eq_dec k (map vr_key rs)) as [Hin | Hn];
    auto.
  apply state_of_None in Hn. congruence.
Qed.

Lemma state_of_app k rs rs' :
  state_of k (rs ++ rs') =
  match state_of k rs with
  | Some st => Some st
  | None => state_of k rs'
  end.
Proof.
  unfold state_of. induction rs as [| r rs IH]; simpl; auto.
  now destruct (JS.eqb (vr_key r) k).
Qed.

Lemma state_of_set_state_same k st status rs :
  In k (map vr_key rs) -> state_of k (set_state k st status rs) = Some st.
Proof.
  unfold state_of, set_state. induction rs as [| r rs IH]; simpl.
  - contradiction.
  - intros [E | H].
    + subst k. rewrite jseqb_refl. simpl. now rewrite jseqb_refl.
    + destruct (JS.eqb (vr_key r) k) eqn:E; simpl; rewrite E; auto.
Qed.

Lemma state_of_set_state_other k k' st status rs :
  k' <> k -> state_of k' (set_state k st status rs) = state_of k' rs.
Proof.
  intros Hne. unfold state_of, set_state.
  induction rs as [| r rs IH]; simpl; auto.
  destruct (JS.eqb (vr_key r) k) eqn:E; simpl.
  - apply jseqb_eq in E. rewrite E.
    apply not_eq_sym, jseqb_neq in Hne. now rewrite Hne.
  - destruct (JS.eqb (vr_key r) k'); auto.
Qed.

Lemma consistent_empty : consistent (mkCrawl [] [] []).
Proof.
  constructor; simpl; try constructor; contradiction.
Qed.

Lemma consistent_enqueue parent c k :
  consistent c -> consistent (enqueue parent c k).
Proof.
  intros [Hk Hq Hqq Hf Hfs]. unfold enqueue.
  destruct (seen k (records c)) eqn:Es; [now constructor |].
  assert (Hnew : ~ In k (keys c)).
  { unfold keys. rewrite <- seen_In. congruence. }
  constructor; simpl.
  - unfold keys. simpl. rewrite map_app. simpl. now apply NoDup_snoc.
  - apply NoDup_snoc; auto. intros H. apply Hnew.
    eapply state_of_Some. eauto.
  - intros k' Hin. rewrite state_of_app.
    apply in_app_iff in Hin as [Hin | [<- | []]].
    + now rewrite (Hqq k' Hin).
    + apply state_of_None in Hnew. rewrite Hnew.
      unfold state_of. simpl. now rewrite jseqb_refl.
  - exact Hf.
  - intros k' Hin. destruct (Hfs k' Hin) as (st & E & Hst).
    exists st. rewrite state_of_app, E. auto.
Qed.

Lemma consistent_discover parent children c :
  consistent c -> consistent (discover parent children c).
Proof.
  unfold discover. revert c.
  induction children as [| k children IH]; intros c Hc; simpl; auto.
  apply IH. now apply consistent_enqueue.
Qed.

Lemma consistent_dequeue rs k q fs :
  consistent (mkCrawl rs (k :: q) fs) ->
  consistent (mkCrawl rs q fs) /\
  ~ In k q /\ state_of k rs = Some QUEUED /\ ~ In k fs.
Proof.
  intros [Hk Hq Hqq Hf Hfs]. simpl in *.
  inversion Hq as [| ? ? Hnq Hq']; subst.
  assert (Hst : state_of k rs = Some QUEUED) by (apply Hqq; now left).
  split; [| split; [| split]]; auto.
  - constructor; simpl; auto.
  - intros Hin. destruct (Hfs k Hin) as (st & E & Hs).
    rewrite Hst in E. injection E as <-. discriminate.
Qed.

Lemma consistent_set_state c k st status :
  consistent c -> ~ In k (queue c) -> not_queued st = true ->
  consistent (mkCrawl (set_state k st status (records c)) (queue c)
                      (fetches c)).
Proof.
  intros [Hk Hq Hqq Hf Hfs] Hnq Hst. constructor; simpl; auto.
  - unfold keys. simpl. now rewrite keys_set_state.
  - intros k' Hin. rewrite state_of_set_state_other; auto.
    intros ->. contradiction.
  - intros k' Hin. destruct (Hfs k' Hin) as (st' & E & Hs).
    destruct (key_eq_dec k' k) as [-> | Hne].
    + exists st. split; auto. apply state_of_set_state_same.
      eapply state_of_Some. eauto.
    + exists st'. now rewrite state_of_set_state_other.
Qed.

Lemma consistent_log rs q fs k st :
  consistent (mkCrawl rs q fs) -> ~ In k fs ->
  state_of k rs = Some st -> not_queued st = true ->
  consistent (mkCrawl rs q (fs ++ [k])).
Proof.
  intros [Hk Hq Hqq Hf Hfs] Hn E Hst. simpl in *.
  constructor; simpl; auto.
  - now apply NoDup_snoc.
  - intros k' Hin. apply in_app_iff in Hin as [Hin | [<- | []]]; eauto.
Qed.

Lemma consistent_step t c c' : consistent c -> step t c c' -> consistent c'.
Proof.
  intros Hc Hs. destruct Hs as [k q rs fs Hskip | k q rs fs Hskip Hroom
                               | k status children c Hst].
  - apply consistent_dequeue in Hc as (Hc & Hnq & Hst & _).
    now apply (consistent_set_state k (Done SKIPPED) None Hc).
  - apply consistent_dequeue in Hc as (Hc & Hnq & Hst & Hnf).
    apply (consistent_set_state k FETCHING None) in Hc; auto.
    simpl in Hc. apply (@consistent_log _ _ _ k FETCHING); auto.
    apply state_of_set_state_same. eapply state_of_Some. eauto.
  - apply consistent_discover. apply consistent_set_state; auto.
    intros Hin. rewrite (queue_queued Hc k Hin) in Hst. discriminate.
Qed.

Lemma reachable_consistent t c : reachable t c -> consistent c.
Proof.
  induction 1 as [| c c' _ IH Hs].
  - apply consistent_enqueue, consistent_empty.
  - eapply consistent_step; eauto.
Qed.

Lemma enqueue_keys parent c k :
  In k (keys (enqueue parent c k)) /\
  (forall k', In k' (keys c) -> In k' (keys (enqueue parent c k))) /\
  fetches (enqueue parent c k) = fetches c.
Proof.
  unfold enqueue. destruct (seen k (records c)) eqn:Es.
  - apply seen_In in Es. auto.
  - unfold keys. simpl. rewrite map_app. simpl. repeat split.
    + apply in_app_iff. right. now left.
    + intros k' H. apply in_app_iff. now left.
Qed.

Lemma discover_keys parent children c :
  (forall k, In k children \/ In k (keys c) ->
             In k (keys (discover parent children c))) /\
  fetches (discover parent children c) = fetches c.
Proof.
  unfold discover. revert c.
  induction children as [| k children IH]; intros c; simpl.
  - split; auto. intros k [[] | H]; auto.
  - destruct (IH (enqueue parent c k)) as [IHk IHf].
    destruct (enqueue_keys parent c k) as (Hk & Hmono & Hf).
    split; [| congruence].
    intros k' [[<- | Hin] | Hin]; apply IHk; auto.
Qed.

End CrawlFacts.

(* ================================================================== *)
(** ** The claim about the orchestrator *)

Section CrawlClaims.

Import Crawl.

(** C1. In every state a crawl run can reach, a CanonicalKey has at most
    one VisitRecord and was handed to the Fetch Client at most once, and a
    key that was fetched has exactly one VisitRecord.  When a fetched page
    is expanded, a key among its child references, however many times it
    occurs there, has exactly one VisitRecord afterwards and still at most
    one fetch. *)
Theorem one_record_one_fetch (t : CrawlTarget) (c : crawl) :
  reachable t c ->
  (forall k, occurrences k (keys c) <= 1 /\ occurrences k (fetches c) <= 1) /\
  (forall k, In k (fetches c) -> occurrences k (keys c) = 1) /\
  occurrences (root t) (keys c) = 1 /\
  (forall page status children c',
      state_of page (records c) = Some FETCHING ->
      c' = discover (Some page) children
             (mkCrawl (set_state page (Done (classify status)) status
                                 (records c))
                      (queue c) (fetches c)) ->
      step t c c' /\
      forall k, In k children ->
                occurrences k (keys c') = 1 /\ occurrences k (fetches c') <= 1).
Proof.
  intros Hr. pose proof (reachable_consistent Hr) as Hc.
  assert (Hcount : forall c0, consistent c0 ->
            forall k, occurrences k (keys c0) <= 1
                      /\ occurrences k (fetches c0) <= 1).
  { intros c0 Hc0 k. unfold occurrences. split.
    - apply (proj1 (NoDup_count_occ key_eq_dec _)), (keys_nodup Hc0).
    - apply (proj1 (NoDup_count_occ key_eq_dec _)), (fetches_nodup Hc0). }
  assert (Hone : forall c0, consistent c0 ->
            forall k, In k (keys c0) -> occurrences k (keys c0) = 1).
  { intros c0 Hc0 k Hin. unfold occurrences.
    apply (proj1 (NoDup_count_occ' key_eq_dec _) (keys_nodup Hc0)), Hin. }
  split; [now apply Hcount |]. split; [| split].
  - intros k Hin. apply Hone; auto.
    destruct (fetches_started Hc k Hin) as (st & E & _).
    eapply state_of_Some. eauto.
  - apply Hone; auto. clear Hc Hcount Hone.
    induction Hr as [| c c' _ IH Hs].
    + unfold seed. apply (proj1 (enqueue_keys _ _ _)).
    + destruct Hs as [k q rs fs _ | k q rs fs _ _ | k status children c _].
      * unfold keys in *. simpl in *. now rewrite keys_set_state.
      * unfold keys in *. simpl in *. now rewrite keys_set_state.
      * apply (proj1 (discover_keys _ _ _)). right. unfold keys in *.
        simpl. now rewrite keys_set_state.
  - intros page status children c' Hst ->.
    assert (Hs : step t c
              (discover (Some page) children
                 (mkCrawl (set_state page (Done (classify status)) status
                                     (records c))
                          (queue c) (fetches c))))
      by now constructor.
    split; [exact Hs |].
    pose proof (consistent_step Hc Hs) as Hc'.
    intros k Hin. split.
    + apply Hone; auto. apply (proj1 (discover_keys _ _ _)). now left.
    + now apply Hcount.
Qed.

End CrawlClaims.

(* ================================================================== *)
(** ** The theorems at the sample pages *)

Section SamplePages.

Import Fixtures.

Lemma parseLink_strips_fragment_witness :
  @new_URL node_URL (lit "page.html#top") pageUrl =
  inr (fake_local [lit "pageBase"; lit "page.html"] (Some (lit "top"))) /\
  (exists u,
     url (@parseLink node_URL (lit "page.html#top") pageUrl) = Some u /\
     error (@parseLink node_URL (lit "page.html#top") pageUrl) = None /\
     hash u = [] /\
     fragment u = None /\
     (scheme u, username u, password u, host u, port u, query u) =
     (lit "http", [], [], Some (lit "fake.local"), None, None) /\
     path u = PathSegments [lit "pageBase"; lit "page.html"]) /\
  (exists u,
     url (@parseLink node_URL (lit "mailto:foo #bar") pageUrl) = Some u /\
     error (@parseLink node_URL (lit "mailto:foo #bar") pageUrl) = None /\
     hash u = [] /\
     fragment u = None /\
     (scheme u, username u, password u, host u, port u, query u) =
     (lit "mailto", [], [], None, None, None) /\
     path u = OpaquePath (lit "foo")).
Proof.
  split; [reflexivity |]. split.
  - apply (@parseLink_strips_fragment node_URL (lit "page.html#top") pageUrl
             (fake_local [lit "pageBase"; lit "page.html"]
                         (Some (lit "top")))).
    reflexivity.
  - apply (@parseLink_strips_fragment node_URL (lit "mailto:foo #bar")
             pageUrl
             (mkURL (lit "mailto") [] [] None None (OpaquePath (lit "foo "))
                    None (Some (lit "bar")))).
    reflexivity.
Defined.

Lemma parseLink_malformed_witness :
  lit "http://[" <> [] /\
  @new_URL node_URL (lit "http://[") pageUrl =
  inl (TypeError (lit "Invalid URL")) /\
  @parseLink node_URL (lit "http://[") pageUrl =
  mkParsedUrl (lit "http://[") (Some (TypeError (lit "Invalid URL"))) None /\
  @pushValues node_URL pageUrl [lit "http://["; lit "site.css"] [] =
  [ mkParsedUrl (lit "http://[") (Some (TypeError (lit "Invalid URL"))) None;
    @parseLink node_URL (lit "site.css") pageUrl ] /\
  @getLinks node_URL malformed_then_ok pageUrl =
  inr [ mkParsedUrl (lit "http://[") (Some (TypeError (lit "Invalid URL")))
                    None;
        @parseLink node_URL (lit "site.css") pageUrl;
        @parseLink node_URL (lit "a.png") pageUrl ] /\
  exists links,
    @getLinks node_URL malformed_then_ok pageUrl = inr links /\
    In (@parseLink node_URL (lit "site.css") pageUrl) links /\
    In (@parseLink node_URL (lit "a.png") pageUrl) links /\
    exists before after,
      links =
      before ++
      mkParsedUrl (lit "http://[") (Some (TypeError (lit "Invalid URL")))
                  None ::
      [] ++ [@parseLink node_URL (lit "site.css") pageUrl] ++ after.
Proof.
  assert (Hv : lit "http://[" <> []) by discriminate.
  assert (He : @new_URL node_URL (lit "http://[") pageUrl =
               inl (TypeError (lit "Invalid URL"))) by reflexivity.
  destruct (@parseLink_malformed node_URL (lit "http://[") pageUrl
              (TypeError (lit "Invalid URL")) Hv He) as (Hp & Hloop & Hdoc).
  destruct (Hdoc malformed_then_ok pageUrl eq_refl)
    as (links & Hl & Hall & Hpos).
  split; [exact Hv |]. split; [exact He |]. split; [exact Hp |].
  split; [rewrite Hloop; reflexivity |]. split; [reflexivity |].
  exists links. split; [exact Hl |]. split; [| split].
  - apply (Hall (lit "href")
                (mkElement (lit "a") [(lit "href", lit "site.css")])
                (lit "site.css") (lit "site.css")).
    + simpl. tauto.
    + simpl. tauto.
    + simpl. tauto.
    + reflexivity.
    + reflexivity.
    + now left.
    + discriminate.
  - apply (Hall (lit "src")
                (mkElement (lit "img") [(lit "src", lit "a.png")])
                (lit "a.png") (lit "a.png")).
    + simpl. tauto.
    + simpl. tauto.
    + simpl. tauto.
    + reflexivity.
    + reflexivity.
    + now left.
    + discriminate.
  - apply (Hpos (lit "href") malformed_anchor (lit "http://[")
                [mkElement (lit "img") [(lit "src", lit "a.png")]]
                [mkElement (lit "a") [(lit "href", lit "site.css")]]
                [] []).
    + reflexivity.
    + simpl. tauto.
    + simpl. tauto.
    + reflexivity.
    + reflexivity.
    + reflexivity.
Defined.

Lemma srcset_candidates_witness :
  In (tagName srcset_img) (tags_of (lit "srcset")) /\
  get (attribs srcset_img) (lit "srcset") = Some (lit "a.png 1x, b.png 2x,, ")
  /\
  parseAttr (lit "srcset") (lit "a.png 1x, b.png 2x,, ") =
  [lit "a.png"; lit "b.png"; []; []] /\
  @eachElement node_URL (lit "srcset") pageUrl srcset_img [] =
  [ @parseLink node_URL (lit "a.png") pageUrl;
    @parseLink node_URL (lit "b.png") pageUrl ].
Proof.
  assert (Ht : In (tagName srcset_img) (tags_of (lit "srcset")))
    by (left; reflexivity).
  assert (Hg : get (attribs srcset_img) (lit "srcset") =
               Some (lit "a.png 1x, b.png 2x,, ")) by reflexivity.
  destruct (@srcset_candidates node_URL (lit "a.png 1x, b.png 2x,, ") pageUrl
              srcset_img [] Ht Hg) as (Hp & _ & _ & He).
  split; [exact Ht |]. split; [exact Hg |]. split.
  - rewrite Hp. reflexivity.
  - rewrite He. reflexivity.
Defined.

Lemma only_registered_tags_witness :
  @getLinks node_URL mixed_pairs pageUrl =
  inr [ @parseLink node_URL (lit "a.png") pageUrl;
        @parseLink node_URL (lit "b.png") pageUrl ] /\
  @getLinks node_URL unregistered_pairs pageUrl = inr [] /\
  forall p,
    In p [ @parseLink node_URL (lit "a.png") pageUrl;
           @parseLink node_URL (lit "b.png") pageUrl ] ->
    exists attr e value,
      In attr (Object_keys linksAttr) /\
      In e (elements mixed_pairs) /\
      In (tagName e) (tags_of attr) /\
      get (attribs e) attr = Some value /\
      In (link p) (parseAttr attr value).
Proof.
  assert (Hl : @getLinks node_URL mixed_pairs pageUrl =
               inr [ @parseLink node_URL (lit "a.png") pageUrl;
                     @parseLink node_URL (lit "b.png") pageUrl ])
    by reflexivity.
  split; [exact Hl |]. split; [reflexivity |].
  exact (proj1 (proj2 (@only_registered_tags node_URL mixed_pairs pageUrl
                         _ Hl))).
Defined.

Lemma link_hints_not_extracted_witness :
  @getLinks node_URL prefetch_page pageUrl =
  inr [@parseLink node_URL (lit "site.css") pageUrl] /\
  In preconnect_link (elements prefetch_page) /\
  get (attribs preconnect_link) (lit "href") =
  Some (lit "https://fonts.example") /\
  forall attr rb acc,
    @eachElement node_URL attr rb preconnect_link acc = acc.
Proof.
  assert (Hl : @getLinks node_URL prefetch_page pageUrl =
               inr [@parseLink node_URL (lit "site.css") pageUrl])
    by reflexivity.
  assert (Hin : In preconnect_link (elements prefetch_page))
    by (simpl; auto).
  split; [exact Hl |]. split; [exact Hin |]. split; [reflexivity |].
  exact (proj1 (@link_hints_not_extracted node_URL prefetch_page pageUrl
                  (lit "preconnect") preconnect_link _ Hl Hin eq_refl eq_refl
                  (or_intror eq_refl))).
Defined.

Lemma base_href_first_witness :
  elements two_bases =
  [mkElement (lit "base") [(lit "target", lit "_blank")]] ++
  mkElement (lit "base") [(lit "href", lit "anotherBase/")] ::
  [mkElement (lit "base") [(lit "href", lit "/late/")];
   mkElement (lit "a") [(lit "href", lit "ok")]] /\
  isAbsoluteUrl (lit "anotherBase/") = false /\
  @realBaseUrl node_URL two_bases pageUrl =
  inr (lit "http://fake.local/pageBase/anotherBase/") /\
  @getLinks node_URL two_bases pageUrl =
  inr [@parseLink node_URL (lit "ok")
         (lit "http://fake.local/pageBase/anotherBase/")].
Proof.
  assert (Hel : elements two_bases =
    [mkElement (lit "base") [(lit "target", lit "_blank")]] ++
    mkElement (lit "base") [(lit "href", lit "anotherBase/")] ::
    [mkElement (lit "base") [(lit "href", lit "/late/")];
     mkElement (lit "a") [(lit "href", lit "ok")]]) by reflexivity.
  assert (Hpre : forall e,
    In e [mkElement (lit "base") [(lit "target", lit "_blank")]] ->
    tagName e = lit "base" -> get (attribs e) (lit "href") = None).
  { intros e [<- | []] _. reflexivity. }
  destruct (@base_href_first node_URL two_bases pageUrl (lit "anotherBase/")
              _ _ _ Hel Hpre eq_refl eq_refl) as [Hrb _].
  split; [exact Hel |]. split; [reflexivity |]. split.
  - rewrite Hrb. reflexivity.
  - reflexivity.
Defined.

Lemma one_record_one_fetch_witness :
  Crawl.reachable twice_target twice_fetching_root /\
  forall c',
    c' = Crawl.discover (Some local_root) [fake_home; fake_home]
           (Crawl.mkCrawl
              (Crawl.set_state local_root
                 (Crawl.Done (Crawl.classify (Some 200%N))) (Some 200%N)
                 (Crawl.records twice_fetching_root))
              (Crawl.queue twice_fetching_root)
              (Crawl.fetches twice_fetching_root)) ->
    Crawl.keys c' = [local_root; fake_home] /\
    Crawl.step twice_target twice_fetching_root c' /\
    Crawl.occurrences fake_home (Crawl.keys c') = 1 /\
    Crawl.occurrences fake_home (Crawl.fetches c') <= 1.
Proof.
  assert (Hr : Crawl.reachable twice_target twice_fetching_root).
  { apply (@Crawl.reach_step twice_target (Crawl.seed twice_target)).
    - apply Crawl.reach_seed.
    - exact (@Crawl.step_fetch twice_target local_root []
               [Crawl.mkVisit local_root Crawl.QUEUED None None] []
               eq_refl (Nat.lt_0_succ 99)). }
  split; [exact Hr |].
  intros c' Hc'.
  destruct (one_record_one_fetch Hr) as (_ & _ & _ & Hexpand).
  destruct (Hexpand local_root (Some 200%N) [fake_home; fake_home] c'
              eq_refl Hc') as [Hs Hk].
  split; [rewrite Hc'; reflexivity |]. split; [exact Hs |].
  apply Hk. now left.
Defined.

End SamplePages.

(* ================================================================== *)
(** ** Further facts about strings and the matcher *)

Section MoreStringFacts.

Lemma split_pieces_clean sep s :
  ~ In sep s -> split_pieces sep s = (s, []).
Proof.
  induction s as [| c s IH]; simpl; auto. intros H.
  rewrite IH by tauto.
  destruct (N.eqb_spec c sep) as [-> | _]; auto. tauto.
Qed.

Lemma split_pieces_app sep piece s :
  ~ In sep piece ->
  split_pieces sep (piece ++ sep :: s) = (piece, split sep s).
Proof.
  unfold split. induction piece as [| c piece IH]; simpl; intros H.
  - rewrite N.eqb_refl. now destruct (split_pieces sep s).
  - rewrite IH by tauto.
    destruct (N.eqb_spec c sep) as [-> | _]; auto. tauto.
Qed.

Lemma split_join sep pieces :
  pieces <> [] ->
  Forall (fun piece => ~ In sep piece) pieces ->
  split sep (join sep pieces) = pieces.
Proof.
  intros Hne Hall. induction Hall as [| piece rest Hp Hrest IH].
  - congruence.
  - destruct rest as [| piece' rest].
    + simpl. unfold split. now rewrite split_pieces_clean.
    + change (join sep (piece :: piece' :: rest))
        with (piece ++ sep :: join sep (piece' :: rest)).
      unfold split at 1. rewrite split_pieces_app by auto.
      rewrite IH by discriminate. reflexivity.
Qed.

Lemma split_length sep s :
  List.length (split sep s) = S (count_occ N.eq_dec s sep).
Proof.
  unfold split. induction s as [| c s IH]; simpl; auto.
  destruct (split_pieces sep s) as [piece pieces]. simpl in IH.
  destruct (N.eqb_spec c sep) as [-> | Hne]; simpl.
  - destruct (N.eq_dec sep sep); [| congruence]. now rewrite IH.
  - destruct (N.eq_dec c sep); [congruence |]. exact IH.
Qed.

Lemma In_take_while p s c :
  In c (take_while p s) -> p c = true /\ In c s.
Proof.
  induction s as [| x s IH]; simpl; [tauto |].
  destruct (p x) eqn:Ex; simpl; [| tauto].
  intros [<- | H]; [auto |]. destruct (IH H). auto.
Qed.

Lemma In_drop_while p s c : In c (drop_while p s) -> In c s.
Proof.
  induction s as [| x s IH]; simpl; auto.
  destruct (p x); simpl; auto.
Qed.

Lemma take_while_all p s :
  Forall (fun c => p c = true) s -> take_while p s = s.
Proof.
  induction 1 as [| c s Hc _ IH]; simpl; auto. now rewrite Hc, IH.
Qed.

Lemma take_while_app_stop p s c rest :
  Forall (fun x => p x = true) s -> p c = false ->
  take_while p (s ++ c :: rest) = s.
Proof.
  induction 1 as [| x s Hx _ IH]; simpl; intros Hc.
  - now rewrite Hc.
  - now rewrite Hx, IH.
Qed.

Lemma leading_token_of_token tok :
  Forall token_char tok -> leading_token tok = tok.
Proof.
  intros H. unfold leading_token.
  assert (Hd : drop_while is_space tok = tok).
  { destruct H as [| c tok [Hc _] _]; simpl; auto. now rewrite Hc. }
  rewrite Hd. apply take_while_all.
  eapply Forall_impl; [| exact H]. intros c [Hc _]. now rewrite Hc.
Qed.

Lemma leading_token_of_candidate cand :
  well_formed_candidate cand -> leading_token (candidate_text cand) = fst cand.
Proof.
  intros (Hne & Htok & _ & Hd). unfold candidate_text.
  destruct Hd as [-> | (c & d & -> & Hc)].
  - rewrite app_nil_r. now apply leading_token_of_token.
  - unfold leading_token.
    assert (Hd : drop_while is_space (fst cand ++ c :: d) =
                 fst cand ++ c :: d).
    { destruct (fst cand) as [| x u]; [congruence |].
      inversion Htok as [| ? ? [Hx _] _]; subst. simpl. now rewrite Hx. }
    rewrite Hd. apply take_while_app_stop.
    + eapply Forall_impl; [| exact Htok]. intros x [Hx _]. now rewrite Hx.
    + now rewrite Hc.
Qed.

Lemma respects_deriv f c r : respects f r -> respects f (deriv c r).
Proof.
  induction r as [| | p | r1 IH1 r2 IH2 | r1 IH1 r2 IH2 | r IH]; simpl; auto.
  - intros _. now destruct (p c).
  - intros [H1 H2]. destruct (nullable r1); simpl; auto.
  - intros [H1 H2]. auto.
Qed.

Lemma deriv_respects f c r : respects f r -> deriv (f c) r = deriv c r.
Proof.
  induction r as [| | p | r1 IH1 r2 IH2 | r1 IH1 r2 IH2 | r IH]; simpl; auto.
  - intros H. now rewrite H.
  - intros [H1 H2]. now rewrite IH1, IH2.
  - intros [H1 H2]. now rewrite IH1, IH2.
  - intros H. now rewrite IH.
Qed.

Lemma test_anchored_map f r s :
  respects f r -> test_anchored r (map f s) = test_anchored r s.
Proof.
  revert r. induction s as [| c s IH]; intros r Hr; simpl; auto.
  rewrite deriv_respects by auto. rewrite IH; auto.
  now apply respects_deriv.
Qed.

Lemma to_lower_cases c :
  (65 <= c <= 90 /\ to_lower c = c + 32)%N \/
  (~ (65 <= c <= 90)%N /\ to_lower c = c).
Proof.
  unfold to_lower.
  destruct (N.leb_spec 65 c), (N.leb_spec c 90); simpl; lia.
Qed.

Lemma is_letter_spec c :
  is_letter c = true <-> (97 <= c <= 122 \/ 65 <= c <= 90)%N.
Proof.
  unfold is_letter.
  rewrite orb_true_iff, !andb_true_iff, !N.leb_le. tauto.
Qed.

Lemma is_letter_to_lower c : is_letter (to_lower c) = is_letter c.
Proof.
  apply eq_true_iff_eq. rewrite !is_letter_spec.
  destruct (to_lower_cases c) as [[H ->] | [H ->]]; lia.
Qed.

Lemma is_scheme_char_to_lower c :
  is_scheme_char (to_lower c) = is_scheme_char c.
Proof.
  unfold is_scheme_char. rewrite is_letter_to_lower.
  destruct (to_lower_cases c) as [[H E] | [H ->]]; auto.
  assert (Hl : is_letter c = true) by (apply is_letter_spec; lia).
  now rewrite Hl.
Qed.

Lemma eqb_to_lower k c :
  (k < 97 \/ 122 < k)%N -> ~ (65 <= k <= 90)%N ->
  N.eqb k (to_lower c) = N.eqb k c.
Proof.
  intros Hk Hk'. apply eq_true_iff_eq. rewrite !N.eqb_eq.
  destruct (to_lower_cases c) as [[H ->] | [H ->]]; lia.
Qed.

Lemma colon_not_scheme_char : is_scheme_char colon = false.
Proof. reflexivity. Qed.

End MoreStringFacts.

(* ================================================================== *)
(** ** Further properties of [isAbsoluteUrl] and [parseAttr] *)

Section MoreStringProperties.

(** X1. [isAbsoluteUrl] does not look at the case of ASCII letters:
    lower-casing a string does not change the answer. *)
Theorem isAbsoluteUrl_ignores_case (s : jsstring) :
  isAbsoluteUrl (map to_lower s) = isAbsoluteUrl s.
Proof.
  unfold isAbsoluteUrl.
  assert (Hc : forall k, (k < 97 \/ 122 < k)%N -> ~ (65 <= k <= 90)%N ->
                         respects to_lower (Chr k)).
  { intros k H1 H2 c. now apply eqb_to_lower. }
  assert (Hcolon : respects to_lower (Chr colon))
    by (apply Hc; unfold colon; lia).
  assert (Hback : respects to_lower (Chr backslash))
    by (apply Hc; unfold backslash; lia).
  rewrite !test_anchored_map; auto.
  - split; [exact is_letter_to_lower |]. split; auto.
    exact is_scheme_char_to_lower.
  - split; [exact is_letter_to_lower |]. split; auto.
Qed.

(** X2. On a string made of a well-formed scheme, a colon and any rest,
    [isAbsoluteUrl] answers true, except when the scheme is a single
    letter and the rest begins with a backslash (a Windows drive path). *)
Theorem isAbsoluteUrl_scheme_colon (c : N) (body rest : jsstring) :
  is_letter c = true ->
  Forall (fun x => is_scheme_char x = true) body ->
  isAbsoluteUrl (c :: body ++ colon :: rest) =
  match body, rest with
  | [], x :: _ => negb (N.eqb x backslash)
  | _, _ => true
  end.
Proof.
  intros Hc Hbody. unfold isAbsoluteUrl.
  assert (Hs : test_anchored scheme_re (c :: body ++ colon :: rest) = true).
  { apply scheme_re_spec. exists c, body, rest. auto. }
  rewrite Hs.
  destruct (test_anchored windows_path_re (c :: body ++ colon :: rest))
    eqn:Ew.
  - apply windows_path_re_spec in Ew as (c' & rest' & E & _).
    destruct body as [| x body]; simpl in E.
    + injection E as _ ->. reflexivity.
    + injection E as _ -> _. inversion Hbody as [| ? ? Hx _]; subst.
      rewrite colon_not_scheme_char in Hx. discriminate.
  - destruct body as [| x body]; auto. destruct rest as [| y rest]; auto.
    destruct (N.eqb_spec y backslash) as [-> | _]; auto.
    assert (Hw : test_anchored windows_path_re
                   (c :: [] ++ colon :: backslash :: rest) = true).
    { apply windows_path_re_spec. exists c, rest. auto. }
    congruence.
Qed.

(** X3. A string that [isAbsoluteUrl] accepts begins with a letter and has
    a colon after it: the empty string, a string that begins with [/],
    [.], [#], [?] or a digit, and a string without a colon are all
    relative. *)
Theorem isAbsoluteUrl_needs_scheme (s : jsstring) :
  isAbsoluteUrl s = true ->
  exists c s', s = c :: s' /\ is_letter c = true /\ In colon s'.
Proof.
  unfold isAbsoluteUrl.
  destruct (test_anchored windows_path_re s); [discriminate |].
  intros H. apply scheme_re_spec in H as (c & body & rest & -> & Hc & _).
  exists c, (body ++ colon :: rest). repeat split; auto.
  apply in_app_iff. right. now left.
Qed.

(** X4. For [srcset], [parseAttr] returns one token for each comma of the
    value plus one, so never an empty array, and no token holds white
    space or a comma. *)
Theorem srcset_tokens_clean (value : jsstring) :
  List.length (parseAttr (lit "srcset") value) =
  S (count_occ N.eq_dec value comma) /\
  Forall (Forall token_char) (parseAttr (lit "srcset") value).
Proof.
  unfold parseAttr. rewrite jseqb_refl. split.
  - now rewrite length_map, split_length.
  - apply Forall_map.
    eapply Forall_impl; [| apply (split_no_separator comma value)].
    intros pair Hpair. rewrite first_token_leading.
    apply Forall_forall. intros c Hc. unfold leading_token in Hc.
    apply In_take_while in Hc as [Hs Hin]. apply In_drop_while in Hin.
    split.
    + now destruct (is_space c).
    + intros ->. contradiction.
Qed.

(** X5. A srcset value without white space and without a comma is read as
    the single URL it is, as [src] would be. *)
Theorem srcset_plain_url (value : jsstring) :
  Forall token_char value ->
  parseAttr (lit "srcset") value = [value] /\
  parseAttr (lit "srcset") value = parseAttr (lit "src") value.
Proof.
  intros H.
  assert (Hp : parseAttr (lit "srcset") value = [value]).
  { unfold parseAttr. rewrite jseqb_refl. unfold split.
    rewrite split_pieces_clean.
    - simpl. now rewrite first_token_leading, leading_token_of_token.
    - intros Hin. rewrite Forall_forall in H. destruct (H _ Hin) as [_ Hc].
      now apply Hc. }
  split; [exact Hp |]. rewrite Hp. reflexivity.
Qed.

(** X6. Round trip: a srcset value written as well-formed candidates (a
    non-empty URL free of white space and commas, then nothing or a
    descriptor set off by white space) joined by commas is parsed back
    into exactly the URLs, in order. *)
Theorem srcset_round_trip (cands : list (jsstring * jsstring)) :
  cands <> [] ->
  Forall well_formed_candidate cands ->
  parseAttr (lit "srcset") (join comma (map candidate_text cands)) =
  map fst cands.
Proof.
  intros Hne Hall. unfold parseAttr. rewrite jseqb_refl.
  rewrite split_join.
  - rewrite map_map. apply map_ext_in. intros cand Hin.
    rewrite first_token_leading. apply leading_token_of_candidate.
    rewrite Forall_forall in Hall. auto.
  - destruct cands; [congruence | discriminate].
  - apply Forall_map. eapply Forall_impl; [| exact Hall].
    intros cand (_ & Htok & Hd & _). unfold candidate_text.
    rewrite in_app_iff. intros [Hin | Hin]; auto.
    rewrite Forall_forall in Htok. destruct (Htok _ Hin) as [_ Hc].
    now apply Hc.
Qed.

End MoreStringProperties.

(* ================================================================== *)
(** ** Further properties of [getLinks] *)

Section MoreLinksProperties.

Context {parser : UrlParser}.

Lemma filter_none (A : Type) (f : A -> bool) (l : list A) :
  (forall x, In x l -> f x = false) -> filter f l = [].
Proof.
  induction l as [| x l IH]; simpl; auto. intros H.
  rewrite (H x) by now left. apply IH. intros y Hy. apply H. now right.
Qed.

Lemma get_linksAttr_keys attr :
  In attr (Object_keys linksAttr) ->
  get linksAttr attr = Some (tags_of attr) /\ tags_of attr <> [].
Proof.
  intros H. simpl in H.
  repeat (destruct H as [<- | H]; [split; [reflexivity | discriminate] |]).
  contradiction.
Qed.

Lemma base_not_registered attr :
  In attr (Object_keys linksAttr) -> ~ In (lit "base") (tags_of attr).
Proof.
  intros H. simpl in H.
  repeat (destruct H as [<- | H];
          [vm_compute; intuition discriminate |]).
  contradiction.
Qed.

Lemma references_single attr rb el value :
  attr <> lit "srcset" ->
  get (attribs el) attr = Some value ->
  references attr rb el =
  if ignored el then []
  else if truthy value then [parseLink value rb] else [].
Proof.
  intros Hattr Hget. unfold references, parseAttr. rewrite Hget.
  apply jseqb_neq in Hattr. rewrite Hattr. simpl.
  destruct (ignored el); auto. now destruct (truthy value).
Qed.

(** X7. [getLinks] throws in one case only: the first [<base>] element
    with an [href] has a value that is not absolute and that [new URL]
    rejects against the URL of the page; the error thrown is the parser's.
    No link of the page can make it throw. *)
Theorem getLinks_throws_iff (doc : document) (baseUrl : jsstring)
    (e : Error) :
  getLinks doc baseUrl = inl e <->
  exists first rest h,
    select [TagAttr (lit "base") (lit "href")] doc = first :: rest /\
    get (attribs first) (lit "href") = Some h /\
    isAbsoluteUrl h = false /\
    new_URL h baseUrl = inl e.
Proof.
  unfold getLinks, realBaseUrl, getBaseUrl.
  destruct (select [TagAttr (lit "base") (lit "href")] doc)
    as [| first rest]; split.
  - discriminate.
  - intros (f & r & h & E & _). discriminate.
  - destruct (get (attribs first) (lit "href")) as [h |] eqn:Eg;
      [| discriminate].
    destruct (isAbsoluteUrl h) eqn:Ea; [discriminate |].
    destruct (new_URL h baseUrl) as [e' | u] eqn:En; [| discriminate].
    intros E. injection E as ->. exists first, rest, h. auto.
  - intros (f & r & h & E & Hg & Ha & Hn). injection E as -> ->.
    now rewrite Hg, Ha, Hn.
Qed.

(** X8. When no [<base>] element of the document has an [href],
    [getLinks] returns, and every reference is resolved against the URL
    of the page. *)
Theorem no_base_uses_page_url (doc : document) (baseUrl : jsstring) :
  (forall el, In el (elements doc) -> tagName el = lit "base" ->
              get (attribs el) (lit "href") = None) ->
  realBaseUrl doc baseUrl = inr baseUrl /\
  exists links,
    getLinks doc baseUrl = inr links /\
    forall p, In p links -> p = parseLink (link p) baseUrl.
Proof.
  intros Hnone.
  assert (Hrb : realBaseUrl doc baseUrl = inr baseUrl).
  { unfold realBaseUrl, select. rewrite filter_none; auto.
    intros el Hel. simpl. rewrite orb_false_r.
    destruct (JS.eqb (tagName el) (lit "base")) eqn:Et; auto.
    apply jseqb_eq in Et. unfold has_attrib.
    now rewrite (Hnone el Hel Et). }
  split; [exact Hrb |].
  unfold getLinks at 1. rewrite Hrb. eexists. split; [reflexivity |].
  intros p Hp.
  assert (Hl : getLinks doc baseUrl =
               inr (fold_left (eachAttr doc baseUrl) (Object_keys linksAttr)
                              []))
    by (unfold getLinks; now rewrite Hrb).
  apply (In_getLinks _ _ Hrb Hl) in Hp.
  destruct Hp as (attr & el & value & v & _ & _ & _ & _ & _ & _ & _ & ->).
  now rewrite link_parseLink.
Qed.

(** X9. Every reference returned by [getLinks] has a non-empty raw text
    and exactly one of [url] and [error]; a [url] has no fragment. *)
Theorem getLinks_results_wellformed (doc : document) (baseUrl : jsstring)
    (links : list ParsedUrl) (p : ParsedUrl) :
  getLinks doc baseUrl = inr links ->
  In p links ->
  link p <> [] /\
  ((exists u, url p = Some u /\ error p = None /\
              fragment u = None /\ hash u = []) \/
   (exists e, error p = Some e /\ url p = None)).
Proof.
  intros Hl Hp. destruct (getLinks_inr _ _ Hl) as [rb Hrb].
  apply (In_getLinks _ _ Hrb Hl) in Hp.
  destruct Hp as (attr & el & value & v & _ & _ & _ & _ & _ & _ & Hv & ->).
  rewrite link_parseLink. split; auto.
  unfold parseLink. destruct (new_URL v rb) as [e | u]; simpl.
  - right. eauto.
  - left. exists (set_hash_empty u). auto.
Qed.

(** X10. For an attribute other than [srcset], a visited element adds
    exactly one reference, the one of its attribute value, and adds
    nothing when the value is the empty string or the element is an
    excluded [link]. *)
Theorem single_valued_attribute (attr rb value : jsstring) (el : element)
    (links : list ParsedUrl) :
  attr <> lit "srcset" ->
  get (attribs el) attr = Some value ->
  eachElement attr rb el links =
  if ignored el then links
  else if truthy value then links ++ [parseLink value rb] else links.
Proof.
  intros Hattr Hget. rewrite eachElement_app.
  rewrite (references_single rb el Hattr Hget).
  destruct (ignored el); [apply app_nil_r |].
  destruct (truthy value); [reflexivity | apply app_nil_r].
Qed.

(** X12. No lookup of [getLinks] yields [undefined]: every key of the
    table has a non-empty list of tags, every element the loop visits for
    an attribute carries that attribute and a registered tag, and the
    first element of [$('base[href]')] is a [base] with an [href]. *)
Theorem lookups_never_undefined (doc : document) :
  (forall attr, In attr (Object_keys linksAttr) ->
     exists tags, get linksAttr attr = Some tags /\ tags <> [] /\
       forall el,
         In el (select (map (fun tag => TagAttr tag attr) tags) doc) ->
         In el (elements doc) /\ In (tagName el) tags /\
         exists value, get (attribs el) attr = Some value) /\
  (forall first rest,
     select [TagAttr (lit "base") (lit "href")] doc = first :: rest ->
     In first (elements doc) /\ tagName first = lit "base" /\
     exists h, get (attribs first) (lit "href") = Some h).
Proof.
  assert (Hsel : forall attr tags el,
    In el (select (map (fun tag => TagAttr tag attr) tags) doc) ->
    In el (elements doc) /\ In (tagName el) tags /\
    exists value, get (attribs el) attr = Some value).
  { intros attr tags el Hin. rewrite select_registered in Hin.
    apply filter_In in Hin as [Hel Hm].
    apply andb_true_iff in Hm as [Ht Ha]. apply existsb_eqb_In in Ht.
    unfold has_attrib in Ha.
    destruct (get (attribs el) attr) as [value |]; [eauto | discriminate]. }
  split.
  - intros attr Ha. destruct (get_linksAttr_keys Ha) as [Hg Hne].
    exists (tags_of attr). auto.
  - intros first rest E.
    destruct (Hsel (lit "href") [lit "base"] first) as (Hel & Ht & Hv).
    { simpl. rewrite E. now left. }
    destruct Ht as [<- | []]. auto.
Qed.

(** X13. The [href] of a [<base>] element sets the base URL but is not
    itself a reference: every reference of the result comes from an
    element whose tag is not [base]. *)
Theorem base_is_not_a_reference (doc : document) (baseUrl : jsstring)
    (links : list ParsedUrl) (p : ParsedUrl) :
  getLinks doc baseUrl = inr links ->
  In p links ->
  exists attr el value,
    In el (elements doc) /\
    tagName el <> lit "base" /\
    get (attribs el) attr = Some value /\
    In (link p) (parseAttr attr value).
Proof.
  intros Hl Hp. destruct (getLinks_inr _ _ Hl) as [rb Hrb].
  apply (In_getLinks _ _ Hrb Hl) in Hp.
  destruct Hp as (attr & el & value & v & Ha & Hel & Ht & Hg & _ & Hv & _
                  & ->).
  exists attr, el, value. rewrite link_parseLink. repeat split; auto.
  intros E. rewrite E in Ht. now apply (base_not_registered Ha).
Qed.

Lemma twice_in_block (A B : Type) (sel : A -> bool) (refs : A -> list B)
    (pre mid post : list A) (x : A) (p : B) :
  sel x = true -> refs x = [p] ->
  flat_map refs (filter sel (pre ++ x :: mid ++ x :: post)) =
  flat_map refs (filter sel pre) ++
  p :: flat_map refs (filter sel mid) ++
  p :: flat_map refs (filter sel post).
Proof.
  intros Hs Hr.
  rewrite filter_app, flat_map_app. f_equal.
  simpl. rewrite Hs. simpl. rewrite Hr. simpl. f_equal.
  rewrite filter_app, flat_map_app. f_equal.
  simpl. rewrite Hs. simpl. now rewrite Hr.
Qed.

(** X14. [getLinks] does not remove repetitions: an element that occurs
    twice in the document, with a non-empty value of a registered
    single-valued attribute, gives its reference twice. *)
Theorem duplicates_are_kept (doc : document) (baseUrl attr value : jsstring)
    (links : list ParsedUrl) (el : element) (pre mid post : list element) :
  getLinks doc baseUrl = inr links ->
  elements doc = pre ++ el :: mid ++ el :: post ->
  In attr (Object_keys linksAttr) ->
  In (tagName el) (tags_of attr) ->
  get (attribs el) attr = Some value ->
  ignored el = false ->
  attr <> lit "srcset" ->
  value <> [] ->
  exists rb l1 l2 l3,
    realBaseUrl doc baseUrl = inr rb /\
    links = l1 ++ parseLink value rb :: l2 ++ parseLink value rb :: l3.
Proof.
  intros Hl Hel Ha Ht Hg Hi Hattr Hv.
  destruct (getLinks_inr _ _ Hl) as [rb Hrb]. exists rb.
  rewrite getLinks_closed, Hrb in Hl. apply inr_injective in Hl. subst links.
  destruct (in_split _ _ Ha) as (k1 & k2 & Ek). rewrite Ek.
  set (block := fun a : jsstring =>
         flat_map (references a rb)
           (filter (fun e => existsb (JS.eqb (tagName e)) (tags_of a)
                             && has_attrib e a)
                   (elements doc))).
  assert (Hblock : exists l1 l2 l3,
            block attr =
            l1 ++ parseLink value rb :: l2 ++ parseLink value rb :: l3).
  { unfold block. rewrite Hel. do 3 eexists. apply twice_in_block.
    - unfold has_attrib. rewrite Hg.
      apply andb_true_iff. split; auto. now apply existsb_eqb_In.
    - rewrite (references_single rb el Hattr Hg), Hi.
      apply truthy_nonempty in Hv. now rewrite Hv. }
  destruct Hblock as (l1 & l2 & l3 & Hblock).
  exists (flat_map block k1 ++ l1), l2, (l3 ++ flat_map block k2).
  split; [exact Hrb |].
  rewrite flat_map_app.
  change (flat_map block (attr :: k2))
    with (block attr ++ flat_map block k2).
  rewrite Hblock. rewrite <- !app_assoc.
  change ((parseLink value rb :: l2 ++ parseLink value rb :: l3) ++
          flat_map block k2)
    with (parseLink value rb ::
          (l2 ++ parseLink value rb :: l3) ++ flat_map block k2).
  rewrite <- app_assoc. reflexivity.
Qed.

End MoreLinksProperties.

(* ================================================================== *)
(** ** The further properties at sample inputs *)

Section MoreSamples.

Import Fixtures MorePages.

Lemma isAbsoluteUrl_scheme_colon_witness :
  is_letter 109 = true /\
  Forall (fun x => is_scheme_char x = true) (lit "ailto") /\
  isAbsoluteUrl (lit "mailto:a@b.c") = true /\
  isAbsoluteUrl (lit "C:\dir") = false /\
  isAbsoluteUrl (lit "C:/dir") = true.
Proof.
  assert (Hb : Forall (fun x => is_scheme_char x = true) (lit "ailto"))
    by (repeat constructor).
  split; [reflexivity |]. split; [exact Hb |]. split; [| split].
  - exact (@isAbsoluteUrl_scheme_colon 109 (lit "ailto") (lit "a@b.c")
             eq_refl Hb).
  - exact (@isAbsoluteUrl_scheme_colon 67 [] (lit "\dir") eq_refl
             (Forall_nil _)).
  - exact (@isAbsoluteUrl_scheme_colon 67 [] (lit "/dir") eq_refl
             (Forall_nil _)).
Defined.

Lemma isAbsoluteUrl_needs_scheme_witness :
  isAbsoluteUrl (lit "https://fake.local/") = true /\
  exists c s',
    lit "https://fake.local/" = c :: s' /\ is_letter c = true /\
    In colon s'.
Proof.
  split; [reflexivity |].
  exact (@isAbsoluteUrl_needs_scheme (lit "https://fake.local/") eq_refl).
Defined.

Lemma srcset_plain_url_witness :
  Forall token_char (lit "a.png") /\
  parseAttr (lit "srcset") (lit "a.png") = [lit "a.png"].
Proof.
  assert (H : Forall token_char (lit "a.png")).
  { repeat constructor; discriminate. }
  split; [exact H |]. exact (proj1 (@srcset_plain_url (lit "a.png") H)).
Defined.

Lemma srcset_round_trip_witness :
  Forall well_formed_candidate
         [(lit "a.png", lit " 1x"); (lit "b.png", lit "  640w");
          (lit "c.png", [])] /\
  parseAttr (lit "srcset") (lit "a.png 1x,b.png  640w,c.png") =
  [lit "a.png"; lit "b.png"; lit "c.png"].
Proof.
  assert (Htok : forall u, In u [lit "a.png"; lit "b.png"; lit "c.png"] ->
                           Forall token_char u).
  { intros u [<- | [<- | [<- | []]]]; repeat constructor; discriminate. }
  assert (H : Forall well_formed_candidate
                [(lit "a.png", lit " 1x"); (lit "b.png", lit "  640w");
                 (lit "c.png", [])]).
  { assert (Hwf : forall u d,
              In u [lit "a.png"; lit "b.png"; lit "c.png"] ->
              ~ In comma d ->
              (d = [] \/ exists c d', d = c :: d' /\ is_space c = true) ->
              well_formed_candidate (u, d)).
    { intros u d Hu Hd Hs. split; [| split; [| split]]; simpl; auto.
      destruct Hu as [<- | [<- | [<- | []]]]; discriminate. }
    constructor; [| constructor; [| constructor; [| constructor]]].
    - apply (Hwf (lit "a.png") (lit " 1x"));
        [simpl; tauto | simpl; intuition discriminate |].
      right. exists 32%N, (lit "1x"). split; reflexivity.
    - apply (Hwf (lit "b.png") (lit "  640w"));
        [simpl; tauto | simpl; intuition discriminate |].
      right. exists 32%N, (lit " 640w"). split; reflexivity.
    - apply (Hwf (lit "c.png") []); [simpl; tauto | simpl; tauto | now left]. }
  assert (Hne : [(lit "a.png", lit " 1x"); (lit "b.png", lit "  640w");
                 (lit "c.png", @nil N)] <> []) by discriminate.
  split; [exact H |].
  exact (@srcset_round_trip _ Hne H).
Defined.

Lemma no_base_uses_page_url_witness :
  @realBaseUrl node_URL mixed_pairs pageUrl = inr pageUrl /\
  @getLinks node_URL mixed_pairs pageUrl =
  inr [ @parseLink node_URL (lit "a.png") pageUrl;
        @parseLink node_URL (lit "b.png") pageUrl ].
Proof.
  assert (H : forall e, In e (elements mixed_pairs) ->
                        tagName e = lit "base" ->
                        get (attribs e) (lit "href") = None).
  { intros e [<- | [<- | [<- | []]]] E; discriminate E. }
  split; [exact (proj1 (@no_base_uses_page_url node_URL mixed_pairs pageUrl
                          H)) |].
  reflexivity.
Defined.

Lemma getLinks_results_wellformed_witness :
  @getLinks node_URL mixed_pairs pageUrl =
  inr [ @parseLink node_URL (lit "a.png") pageUrl;
        @parseLink node_URL (lit "b.png") pageUrl ] /\
  link (@parseLink node_URL (lit "a.png") pageUrl) <> [] /\
  ((exists u, url (@parseLink node_URL (lit "a.png") pageUrl) = Some u /\
              error (@parseLink node_URL (lit "a.png") pageUrl) = None /\
              fragment u = None /\ hash u = []) \/
   (exists e, error (@parseLink node_URL (lit "a.png") pageUrl) = Some e /\
              url (@parseLink node_URL (lit "a.png") pageUrl) = None)).
Proof.
  assert (Hl : @getLinks node_URL mixed_pairs pageUrl =
               inr [ @parseLink node_URL (lit "a.png") pageUrl;
                     @parseLink node_URL (lit "b.png") pageUrl ])
    by reflexivity.
  split; [exact Hl |].
  exact (@getLinks_results_wellformed node_URL mixed_pairs pageUrl _
           (@parseLink node_URL (lit "a.png") pageUrl) Hl
           (or_introl eq_refl)).
Defined.

Lemma single_valued_attribute_witness :
  get (attribs empty_anchor) (lit "href") = Some [] /\
  @eachElement node_URL (lit "href") pageUrl empty_anchor [] = [] /\
  @eachElement node_URL (lit "href") pageUrl anchor [] =
  [@parseLink node_URL (lit "a.png") pageUrl].
Proof.
  assert (Hne : lit "href" <> lit "srcset") by discriminate.
  split; [reflexivity |]. split.
  - exact (@single_valued_attribute node_URL (lit "href") pageUrl []
             empty_anchor [] Hne eq_refl).
  - exact (@single_valued_attribute node_URL (lit "href") pageUrl
             (lit "a.png") anchor [] Hne eq_refl).
Defined.

Lemma base_is_not_a_reference_witness :
  @getLinks node_URL two_bases pageUrl =
  inr [@parseLink node_URL (lit "ok")
         (lit "http://fake.local/pageBase/anotherBase/")] /\
  exists attr e value,
    In e (elements two_bases) /\
    tagName e <> lit "base" /\
    get (attribs e) attr = Some value /\
    In (link (@parseLink node_URL (lit "ok")
                (lit "http://fake.local/pageBase/anotherBase/")))
       (parseAttr attr value).
Proof.
  assert (Hl : @getLinks node_URL two_bases pageUrl =
               inr [@parseLink node_URL (lit "ok")
                      (lit "http://fake.local/pageBase/anotherBase/")])
    by reflexivity.
  split; [exact Hl |].
  exact (@base_is_not_a_reference node_URL two_bases pageUrl _ _ Hl
           (or_introl eq_refl)).
Defined.

Lemma duplicates_are_kept_witness :
  elements twice_page =
  [] ++ anchor :: [mkElement (lit "p") []] ++ anchor :: [] /\
  @getLinks node_URL twice_page pageUrl =
  inr [ @parseLink node_URL (lit "a.png") pageUrl;
        @parseLink node_URL (lit "a.png") pageUrl ] /\
  exists rb l1 l2 l3,
    @realBaseUrl node_URL twice_page pageUrl = inr rb /\
    [ @parseLink node_URL (lit "a.png") pageUrl;
      @parseLink node_URL (lit "a.png") pageUrl ] =
    l1 ++ @parseLink node_URL (lit "a.png") rb ::
    l2 ++ @parseLink node_URL (lit "a.png") rb :: l3.
Proof.
  assert (Hel : elements twice_page =
                [] ++ anchor :: [mkElement (lit "p") []] ++ anchor :: [])
    by reflexivity.
  assert (Hl : @getLinks node_URL twice_page pageUrl =
               inr [ @parseLink node_URL (lit "a.png") pageUrl;
                     @parseLink node_URL (lit "a.png") pageUrl ])
    by reflexivity.
  assert (Ha : In (lit "href") (Object_keys linksAttr))
    by (simpl; tauto).
  assert (Ht : In (tagName anchor) (tags_of (lit "href")))
    by (left; reflexivity).
  split; [exact Hel |]. split; [exact Hl |].
  exact (@duplicates_are_kept node_URL twice_page pageUrl (lit "href")
           (lit "a.png") _ anchor _ _ _ Hl Hel Ha Ht eq_refl eq_refl
           ltac:(discriminate) ltac:(discriminate)).
Defined.

End MoreSamples.
